(** * Wiener deblurring filter (deblur.cpp): a shallow embedding

    The program restores a defocused grayscale image in the frequency
    domain.  Its own code is the glue of [getWienerFilter] and [filter]:
    it builds a disk kernel, swaps the quadrants of the kernel, calls the
    Fourier transform of OpenCV and combines the planes cell by cell.

    Conventions of the embedding.
    - A matrix ([cv::Mat]) is its two dimensions and the accessor
      [at_ m y x] (row [y], column [x]); only cells inside the dimensions
      are meaningful.
    - A sample ([float], [double]) is a value of [fval]: an exact real
      number, an infinity or NaN.  Division by zero, infinities and NaN
      follow IEEE 754; rounding, overflow and the sign of zero are not
      represented.
    - The functions of OpenCV are modelled from their documentation:
      [cv::dft] is the two-dimensional discrete Fourier transform with
      its [DFT_INVERSE] and [DFT_SCALE] flags, [cv::circle] checks
      [radius >= 0] and paints the cells chosen by a rasteriser, which is
      a parameter of the development.
    - A failed [CV_Assert] is the only way the code raises. *)

From Stdlib Require Import Reals Lra Lia ZArith Bool Arith.

Open Scope R_scope.

(** ** Samples *)

Inductive fval : Type :=
| Fin (r : R)
| Inf (neg : bool)
| NaN.

Definition is_zero (r : R) : bool := if Req_dec_T r 0 then true else false.
Definition is_neg (r : R) : bool := if Rlt_dec r 0 then true else false.

Definition fopp (a : fval) : fval :=
  match a with
  | Fin r => Fin (- r)
  | Inf s => Inf (negb s)
  | NaN => NaN
  end.

Definition fabs (a : fval) : fval :=
  match a with
  | Fin r => Fin (Rabs r)
  | Inf _ => Inf false
  | NaN => NaN
  end.

Definition fadd (a b : fval) : fval :=
  match a, b with
  | NaN, _ | _, NaN => NaN
  | Fin x, Fin y => Fin (x + y)
  | Inf s, Inf t => if Bool.eqb s t then Inf s else NaN
  | Inf s, Fin _ => Inf s
  | Fin _, Inf t => Inf t
  end.

Definition fsub (a b : fval) : fval := fadd a (fopp b).

Definition fmul (a b : fval) : fval :=
  match a, b with
  | NaN, _ | _, NaN => NaN
  | Fin x, Fin y => Fin (x * y)
  | Inf s, Inf t => Inf (xorb s t)
  | Inf s, Fin y => if is_zero y then NaN else Inf (xorb s (is_neg y))
  | Fin x, Inf t => if is_zero x then NaN else Inf (xorb (is_neg x) t)
  end.

(** A finite zero divisor stands for [+0.0]. *)
Definition fdiv (a b : fval) : fval :=
  match a, b with
  | NaN, _ | _, NaN => NaN
  | Fin x, Fin y =>
      if is_zero y then (if is_zero x then NaN else Inf (is_neg x))
      else Fin (x / y)
  | Fin _, Inf _ => Fin 0
  | Inf s, Fin y => Inf (xorb s (is_neg y))
  | Inf _, Inf _ => NaN
  end.

Definition is_finite (a : fval) : bool :=
  match a with Fin _ => true | _ => false end.

Definition toR (a : fval) : R :=
  match a with Fin r => r | _ => 0 end.

(** Sum of [f 0], ..., [f (n-1)], accumulated from the left. *)
Fixpoint fsum (n : nat) (f : nat -> fval) : fval :=
  match n with
  | O => Fin 0
  | S k => fadd (fsum k f) (f k)
  end.

(** The same sum on exact numbers. *)
Fixpoint rsum (n : nat) (f : nat -> R) : R :=
  match n with
  | O => 0
  | S k => rsum k f + f k
  end.

(** A cell of a two-channel matrix: real and imaginary part. *)
Definition cval : Type := (fval * fval)%type.

Definition cadd (a b : cval) : cval := (fadd (fst a) (fst b), fadd (snd a) (snd b)).

Definition cmul (a b : cval) : cval :=
  (fsub (fmul (fst a) (fst b)) (fmul (snd a) (snd b)),
   fadd (fmul (fst a) (snd b)) (fmul (snd a) (fst b))).

Definition cscale (k : fval) (a : cval) : cval := (fmul k (fst a), fmul k (snd a)).

Fixpoint csum (n : nat) (f : nat -> cval) : cval :=
  match n with
  | O => (Fin 0, Fin 0)
  | S k => cadd (csum k f) (f k)
  end.

(** ** Matrices, sizes, rectangles *)

Record Mat (A : Type) : Type := mkMat {
  rows : nat;
  cols : nat;
  at_ : nat -> nat -> A
}.
Arguments mkMat {A} _ _ _.
Arguments rows {A} _.
Arguments cols {A} _.
Arguments at_ {A} _ _ _.

Record Size : Type := mkSize { width : nat; height : nat }.
Record Point : Type := mkPoint { pt_x : nat; pt_y : nat }.
Record Rect : Type := mkRect { rect_x : nat; rect_y : nat; rect_w : nat; rect_h : nat }.

Definition inside {A} (m : Mat A) (y x : nat) : Prop := (y < rows m)%nat /\ (x < cols m)%nat.

(** Same dimensions and the same cell at every position. *)
Definition mat_eq {A} (a b : Mat A) : Prop :=
  rows a = rows b /\ cols a = cols b /\ forall y x, at_ a y x = at_ b y x.

(** Same dimensions and the same cell at every position inside them. *)
Definition mat_equiv {A} (a b : Mat A) : Prop :=
  rows a = rows b /\ cols a = cols b /\
  forall y x, (y < rows a)%nat -> (x < cols a)%nat -> at_ a y x = at_ b y x.

Definition size_of {A} (m : Mat A) : Size := mkSize (cols m) (rows m).

(** [Mat(size, CV_32F, Scalar(v))] and [Mat::zeros]. *)
Definition mat_fill (sz : Size) (v : fval) : Mat fval :=
  mkMat (height sz) (width sz) (fun _ _ => v).
Definition zeros (sz : Size) : Mat fval := mat_fill sz (Fin 0).

Definition clone {A} (m : Mat A) : Mat A := mkMat (rows m) (cols m) (at_ m).

Definition mat_map {A B} (f : A -> B) (m : Mat A) : Mat B :=
  mkMat (rows m) (cols m) (fun y x => f (at_ m y x)).

Definition mat_zip {A B C} (f : A -> B -> C) (a : Mat A) (b : Mat B) : Mat C :=
  mkMat (rows a) (cols a) (fun y x => f (at_ a y x) (at_ b y x)).

(** [cv::sum] of a one-channel matrix. *)
Definition sum (m : Mat fval) : fval :=
  fsum (rows m) (fun y => fsum (cols m) (fun x => at_ m y x)).

(** [m / s], [cv::abs], [cv::pow(m, 2, dst)], [m += s], [cv::divide]. *)
Definition mat_div_scalar (m : Mat fval) (s : fval) : Mat fval :=
  mat_map (fun c => fdiv c s) m.
Definition mat_abs (m : Mat fval) : Mat fval := mat_map fabs m.
Definition pow2 (m : Mat fval) : Mat fval := mat_map (fun c => fmul c c) m.
Definition mat_add_scalar (m : Mat fval) (s : fval) : Mat fval :=
  mat_map (fun c => fadd c s) m.
Definition divide (a b : Mat fval) : Mat fval := mat_zip fdiv a b.

(** [cv::merge] of two planes and [cv::split] into them. *)
Definition merge (planes : Mat fval * Mat fval) : Mat cval :=
  mat_zip pair (fst planes) (snd planes).
Definition split (m : Mat cval) : Mat fval * Mat fval :=
  (mat_map fst m, mat_map snd m).

(** *** Regions of interest

    [Mat q(m, r)] is a view of the buffer of [m].  [roi m r] is what
    [q.copyTo(tmp)] stores in a fresh matrix; [copyTo src m r] is the
    buffer of [m] after [src.copyTo(q)]. *)
Definition in_rect (r : Rect) (y x : nat) : bool :=
  (rect_y r <=? y)%nat && (y <? rect_y r + rect_h r)%nat &&
  (rect_x r <=? x)%nat && (x <? rect_x r + rect_w r)%nat.

Definition roi {A} (m : Mat A) (r : Rect) : Mat A :=
  mkMat (rect_h r) (rect_w r) (fun y x => at_ m (rect_y r + y) (rect_x r + x)).

Definition copyTo {A} (src : Mat A) (m : Mat A) (r : Rect) : Mat A :=
  mkMat (rows m) (cols m)
    (fun y x => if in_rect r y x then at_ src (y - rect_y r) (x - rect_x r)
                else at_ m y x).

(** ** Failure *)

Inductive Exception : Type := StsAssert.

Inductive result (A : Type) : Type :=
| Ok (a : A)
| Raise (e : Exception).
Arguments Ok {A} _.
Arguments Raise {A} _.

Definition bind {A B} (c : result A) (k : A -> result B) : result B :=
  match c with
  | Ok a => k a
  | Raise e => Raise e
  end.

Notation "x <- c ;; k" := (bind c (fun x => k))
  (at level 61, c at next level, right associativity).

(** ** The Fourier transform of OpenCV *)

Definition DFT_INVERSE : Z := 1.
Definition DFT_SCALE : Z := 2.

Definition has_flag (flags f : Z) : bool := negb (Z.land flags f =? 0)%Z.

Definition cis (t : R) : cval := (Fin (cos t), Fin (sin t)).

(** [2 pi (u y / M + v x / N)] *)
Definition angle (M N u v y x : nat) : R :=
  2 * PI * (INR u * INR y / INR M + INR v * INR x / INR N).

(** [cv::dft(src, dst, flags)] on a two-channel matrix: the forward
    transform has the kernel [exp (- i angle)], [DFT_INVERSE] conjugates
    it, and only [DFT_SCALE] divides the result by the number of cells. *)
Definition dft (src : Mat cval) (flags : Z) : Mat cval :=
  let M := rows src in
  let N := cols src in
  let sgn := if has_flag flags DFT_INVERSE then 1 else -1 in
  let raw := fun u v =>
    csum M (fun y => csum N (fun x =>
      cmul (at_ src y x) (cis (sgn * angle M N u v y x)))) in
  if has_flag flags DFT_SCALE
  then mkMat M N (fun u v => cscale (fdiv (Fin 1) (Fin (INR (M * N)))) (raw u v))
  else mkMat M N raw.

(** [cv::idft(src, dst, flags)] is [cv::dft] with [DFT_INVERSE] added. *)
Definition idft (src : Mat cval) (flags : Z) : Mat cval :=
  dft src (Z.lor flags DFT_INVERSE).

(** [cv::mulSpectrums(a, b, c, 0)]: the cellwise complex product, after
    the assertion that both operands have the same size. *)
Definition mulSpectrums (a b : Mat cval) : result (Mat cval) :=
  if (rows a =? rows b)%nat && (cols a =? cols b)%nat
  then Ok (mat_zip cmul a b)
  else Raise StsAssert.

(** ** The two functions of deblur.cpp *)

(** The module-level sliders (lines 20-21). *)
Record Globals : Type := mkGlobals { radius_slider : Z; snr_slider : Z }.

(** [filter] (lines 82-98); the result is [outputImg], whose previous
    header is dropped by the assignment of line 97. *)
Definition filter (inputImg : Mat fval) (outputImg : Mat fval) (H : Mat fval)
    : result (Mat fval) :=
  let planes := (clone inputImg, zeros (size_of inputImg)) in
  let complexI := merge planes in
  let complexI := dft complexI DFT_SCALE in
  let planesH := (clone H, zeros (size_of H)) in
  let complexH := merge planesH in
  complexIH <- mulSpectrums complexI complexH ;;
  let complexIH := idft complexIH 0 in
  let planes := split complexIH in
  let outputImg := fst planes in
  Ok outputImg.

(** [complexI] after line 87 of [filter]. *)
Definition imageSpectrum (inputImg : Mat fval) : Mat cval :=
  dft (merge (clone inputImg, zeros (size_of inputImg))) DFT_SCALE.

(** The quadrant exchange of [getWienerFilter] (lines 118-131); [q0] to
    [q3] are views of the one buffer [freqPSF], [tmp] owns its cells. *)
Definition swapQuadrants {A} (freqPSF : Mat A) : Mat A :=
  let cx := (cols freqPSF / 2)%nat in
  let cy := (rows freqPSF / 2)%nat in
  let q0 := mkRect 0 0 cx cy in
  let q1 := mkRect cx 0 cx cy in
  let q2 := mkRect 0 cy cx cy in
  let q3 := mkRect cx cy cx cy in
  let tmp := roi freqPSF q0 in
  let freqPSF := copyTo (roi freqPSF q3) freqPSF q0 in
  let freqPSF := copyTo tmp freqPSF q3 in
  let tmp := roi freqPSF q1 in
  let freqPSF := copyTo (roi freqPSF q2) freqPSF q1 in
  let freqPSF := copyTo tmp freqPSF q2 in
  freqPSF.

Definition MAX_THICKNESS : Z := 32767.

Section Deblur.

(** The cells [cv::circle] paints: [raster rows cols center radius
    thickness lineType y x]. *)
Variable raster : nat -> nat -> Point -> Z -> Z -> Z -> nat -> nat -> bool.

(** [cv::circle(img, center, radius, color, thickness, lineType)]. *)
Definition circle (img : Mat fval) (center : Point) (radius : Z)
    (color : fval) (thickness lineType : Z) : result (Mat fval) :=
  if ((0 <=? radius)%Z && (thickness <=? MAX_THICKNESS)%Z)
  then Ok (mkMat (rows img) (cols img)
             (fun y x =>
                if raster (rows img) (cols img) center radius thickness lineType y x
                then color else at_ img y x))
  else Raise StsAssert.

(** [getWienerFilter] (lines 103-143); the radius and the noise term
    are read from the sliders, the result is stored in [imgOut]. *)
Definition getWienerFilter (g : Globals) (bbox : Size) (imgOut : Mat fval)
    : result (Mat fval) :=
  let radW := width bbox in
  let radH := height bbox in
  let point := mkPoint (radW / 2) (radH / 2) in
  let psf := mat_fill bbox (Fin 0) in
  psf <- circle psf point (radius_slider g) (Fin 255) (-1) 5 ;;
  let psf := mat_div_scalar psf (sum psf) in
  let freqPSF := clone psf in
  let freqPSF := swapQuadrants freqPSF in
  let planes := (clone freqPSF, zeros (size_of freqPSF)) in
  let cI := merge planes in
  let cI := dft cI 0 in
  let planes := split cI in
  let degrad := pow2 (mat_abs (fst planes)) in
  let degrad := mat_add_scalar degrad (fdiv (Fin 1) (Fin (IZR (snr_slider g)))) in
  let imgOut := divide (fst planes) degrad in
  Ok imgOut.

(** [on_radius_trackbar] (lines 49-60) up to the call of
    [displayFiltered]: the value of [imgMod].  The parameter hides the
    slider of the same name inside this function only. *)
Definition on_radius_trackbar (g : Globals) (radius_slider : Z) (image : Mat fval)
    : result (Mat fval) :=
  let imgOrig := image in
  let imgMod := zeros (mkSize 0 0) in
  let imgFiltered := zeros (mkSize 0 0) in
  let bbox := mkRect 0 0 (cols imgOrig) (rows imgOrig) in
  imgFiltered <- getWienerFilter g (mkSize (rect_w bbox) (rect_h bbox)) imgFiltered ;;
  filter (roi imgOrig bbox) imgMod imgFiltered.

(** [on_snr_trackbar] (lines 65-76), likewise. *)
Definition on_snr_trackbar (g : Globals) (snr_slider : Z) (image : Mat fval)
    : result (Mat fval) :=
  let imgOrig := image in
  let imgMod := zeros (mkSize 0 0) in
  let imgFiltered := zeros (mkSize 0 0) in
  let bbox := mkRect 0 0 (cols imgOrig) (rows imgOrig) in
  imgFiltered <- getWienerFilter g (mkSize (rect_w bbox) (rect_h bbox)) imgFiltered ;;
  filter (roi imgOrig bbox) imgMod imgFiltered.

(** *** Program points of [getWienerFilter] *)

(** [psf] after line 113. *)
Definition getPSF (g : Globals) (bbox : Size) : result (Mat fval) :=
  psf <- circle (mat_fill bbox (Fin 0))
           (mkPoint (width bbox / 2) (height bbox / 2))
           (radius_slider g) (Fin 255) (-1) 5 ;;
  Ok (mat_div_scalar psf (sum psf)).

(** The argument of [cv::dft] at line 135, from [psf]. *)
Definition psfPlanes (psf : Mat fval) : Mat cval :=
  let freqPSF := swapQuadrants (clone psf) in
  merge (clone freqPSF, zeros (size_of freqPSF)).

(** [cI] after line 135, from [psf]. *)
Definition psfSpectrum (psf : Mat fval) : Mat cval := dft (psfPlanes psf) 0.

(** A cell of [imgOut] after line 142, from the cell [h] of the real
    plane of [cI]. *)
Definition wienerCell (snr : Z) (h : fval) : fval :=
  fdiv h (fadd (fmul (fabs h) (fabs h)) (fdiv (Fin 1) (Fin (IZR snr)))).

(** [imgOut] after line 142, from [psf]. *)
Definition transferOf (g : Globals) (psf : Mat fval) : Mat fval :=
  mkMat (rows (psfSpectrum psf)) (cols (psfSpectrum psf))
    (fun y x => wienerCell (snr_slider g) (fst (at_ (psfSpectrum psf) y x))).

(** The cells line 112 paints, their values before line 113 and the
    divisor of line 113. *)
Definition painted (g : Globals) (bbox : Size) (y x : nat) : bool :=
  raster (height bbox) (width bbox)
    (mkPoint (width bbox / 2) (height bbox / 2)) (radius_slider g) (-1)%Z 5%Z y x.

Definition raw (g : Globals) (bbox : Size) (y x : nat) : R :=
  if painted g bbox y x then 255 else 0.

Definition total (g : Globals) (bbox : Size) : R :=
  rsum (height bbox) (fun y => rsum (width bbox) (fun x => raw g bbox y x)).

(** [psf] after line 113 when [cv::circle] has accepted the radius. *)
Definition kernel (g : Globals) (bbox : Size) : Mat fval :=
  mkMat (height bbox) (width bbox)
    (fun y x => fdiv (if painted g bbox y x then Fin 255 else Fin 0)
                     (Fin (total g bbox))).

End Deblur.

(** A rasteriser paints the centre of a filled circle with a radius that
    is not negative, when the centre is a cell of the image. *)
Definition paints_center
    (raster : nat -> nat -> Point -> Z -> Z -> Z -> nat -> nat -> bool) : Prop :=
  forall rows cols center radius,
    (0 <= radius)%Z -> (pt_y center < rows)%nat -> (pt_x center < cols)%nat ->
    raster rows cols center radius (-1)%Z 5%Z (pt_y center) (pt_x center) = true.

(** The filled disk of the plane: the cells at distance at most [radius]
    from the centre. *)
Definition disk_raster (rows cols : nat) (center : Point) (radius thickness lineType : Z)
    (y x : nat) : bool :=
  let dx := (Z.of_nat x - Z.of_nat (pt_x center))%Z in
  let dy := (Z.of_nat y - Z.of_nat (pt_y center))%Z in
  (dx * dx + dy * dy <=? radius * radius)%Z.


(** ** The steps of the specification

    Section 4 of the specification names the steps of the filter
    construction; they are written here cell by cell, to be compared
    with the code above. *)

(** 4.3: the four quadrants, with floored half-dimensions as their
    boundaries, are exchanged diagonally; a cell outside them stays. *)
Definition centerQuadrants {A} (grid : Mat A) : Mat A :=
  let cx := (cols grid / 2)%nat in
  let cy := (rows grid / 2)%nat in
  mkMat (rows grid) (cols grid)
    (fun y x =>
       if ((y <? 2 * cy) && (x <? 2 * cx))%nat
       then at_ grid (if (y <? cy)%nat then y + cy else y - cy)%nat
                     (if (x <? cx)%nat then x + cx else x - cx)%nat
       else at_ grid y x).

Section Specification.

Variable raster : nat -> nat -> Point -> Z -> Z -> Z -> nat -> nat -> bool.

(** 4.2: a zero grid, the cells of the disk set to one constant, every
    cell divided by the sum of all cells. *)
Definition buildDiskPSF (size : Size) (radius : Z) : Mat fval :=
  let w := width size in
  let h := height size in
  let disk := raster h w (mkPoint (w / 2) (h / 2)) radius (-1) 5 in
  let filled := mkMat h w (fun y x => if disk y x then Fin 255 else Fin 0) in
  let total := sum filled in
  mkMat h w (fun y x => fdiv (at_ filled y x) total).

(** 4.4: disk kernel, quadrant centering, forward transform, real
    plane [H], [degrad = |H|^2 + 1/snr], quotient [H / degrad]. *)
Definition buildWienerFilter (size : Size) (radius snr : Z) : Mat fval :=
  let psf := buildDiskPSF size radius in
  let centered := centerQuadrants psf in
  let spectrum := dft (mkMat (rows centered) (cols centered)
                         (fun y x => (at_ centered y x, Fin 0))) 0 in
  let H := fun y x => fst (at_ spectrum y x) in
  let degrad := fun y x =>
    fadd (fmul (fabs (H y x)) (fabs (H y x))) (fdiv (Fin 1) (Fin (IZR snr))) in
  mkMat (rows spectrum) (cols spectrum) (fun y x => fdiv (H y x) (degrad y x)).

End Specification.

(** ** Exact complex arithmetic

    The finite cells of a two-channel matrix are complex numbers; the
    transform is studied on them. *)

Definition Cx : Type := (R * R)%type.

Definition Cadd (a b : Cx) : Cx := (fst a + fst b, snd a + snd b).
Definition Cmul (a b : Cx) : Cx :=
  (fst a * fst b - snd a * snd b, fst a * snd b + snd a * fst b).
Definition Cscal (k : R) (a : Cx) : Cx := (k * fst a, k * snd a).

Fixpoint Csum (n : nat) (f : nat -> Cx) : Cx :=
  match n with
  | O => (0, 0)
  | S k => Cadd (Csum k f) (f k)
  end.

Fixpoint Cpow (z : Cx) (n : nat) : Cx :=
  match n with
  | O => (1, 0)
  | S k => Cmul (Cpow z k) z
  end.

Definition cisR (t : R) : Cx := (cos t, sin t).

Definition cfin (z : Cx) : cval := (Fin (fst z), Fin (snd z)).

(** The double sum of the transform on exact cells. *)
Definition rdft (sgn : R) (M N : nat) (X : nat -> nat -> Cx) (u v : nat) : Cx :=
  Csum M (fun y => Csum N (fun x => Cmul (X y x) (cisR (sgn * angle M N u v y x)))).

(** The finite cells of a one-channel matrix as complex numbers. *)
Definition cellsOf (m : Mat fval) : nat -> nat -> Cx :=
  fun y x => (toR (at_ m y x), 0).

Definition all_finite (m : Mat fval) : Prop :=
  forall y x, (y < rows m)%nat -> (x < cols m)%nat -> is_finite (at_ m y x) = true.

(** The real plane [H] of the spectrum of line 136, on exact numbers:
    the forward sum of the centred kernel, not scaled. *)
Definition realPlane
    (raster : nat -> nat -> Point -> Z -> Z -> Z -> nat -> nat -> bool)
    (g : Globals) (bbox : Size) (u v : nat) : R :=
  fst (rdft (-1) (height bbox) (width bbox)
         (cellsOf (swapQuadrants (kernel raster g bbox))) u v).

(** ** Sample inputs *)

Definition no_image : Mat fval := zeros (mkSize 0 0).
Definition default_sliders : Globals := mkGlobals 64 1200.
Definition grid2x2 : Mat nat := mkMat 2 2 (fun y x => (2 * y + x)%nat).
Definition image2x2 : Mat fval := mkMat 2 2 (fun y x => Fin (INR (2 * y + x))).
Definition half_sliders : Globals := mkGlobals 64 600.
Definition muted_sliders : Globals := mkGlobals 64 0.

(** ** Further program points and inputs *)

(** A cell of [outputImg] after line 97, on exact numbers: the inverse
    sum of the scaled spectrum of the image multiplied, cell by cell, by
    the transfer function with a zero imaginary plane. *)
Definition filterCell (img H : Mat fval) (y x : nat) : R :=
  fst (rdft 1 (rows img) (cols img)
         (fun u v =>
            Cmul (Cscal (1 / INR (rows img * cols img))
                    (rdft (-1) (rows img) (cols img) (cellsOf img) u v))
                 (cellsOf H u v))
         y x).

(** A rasteriser that paints nothing but the centre for the radius zero. *)
Definition paints_only_center
    (raster : nat -> nat -> Point -> Z -> Z -> Z -> nat -> nat -> bool) : Prop :=
  forall rows cols center y x,
    raster rows cols center 0%Z (-1)%Z 5%Z y x = true ->
    y = pt_y center /\ x = pt_x center.

(** The image [a * m1 + m2], sample by sample. *)
Definition mat_axpy (a : R) (m1 m2 : Mat fval) : Mat fval :=
  mat_zip (fun c1 c2 => fadd (fmul (Fin a) c1) c2) m1 m2.

(** The full rectangle of lines 54 and 70 applied to the image. *)
Definition whole (image : Mat fval) : Mat fval :=
  roi image (mkRect 0 0 (cols image) (rows image)).

Definition image3x1 : Mat fval := mkMat 1 3 (fun y x => Fin (INR x)).
Definition image4x4 : Mat fval := mkMat 4 4 (fun y x => Fin (INR (4 * y + x))).
Definition unit_sliders : Globals := mkGlobals 0 1200.

(** The largest value the trackbar of line 37 gives the noise slider. *)
Definition snr_slider_max : Z := 2000.

(** * Properties *)

(** ** Quadrant exchange *)

Ltac split_tests :=
  repeat (match goal with
    | |- context [(?a <=? ?b)%nat] => destruct (Nat.leb_spec a b)
    | |- context [(?a <? ?b)%nat] => destruct (Nat.ltb_spec a b)
    end; cbn [andb]; try lia).

Lemma swapQuadrants_rows A (m : Mat A) : rows (swapQuadrants m) = rows m.
Proof. reflexivity. Qed.

Lemma swapQuadrants_cols A (m : Mat A) : cols (swapQuadrants m) = cols m.
Proof. reflexivity. Qed.

(** The six copies of lines 126-131 amount to the diagonal exchange. *)
Lemma swapQuadrants_at A (m : Mat A) (y x : nat) :
  at_ (swapQuadrants m) y x = at_ (centerQuadrants m) y x.
Proof.
  unfold swapQuadrants, centerQuadrants, copyTo, roi, in_rect; simpl.
  generalize (cols m / 2)%nat (rows m / 2)%nat; intros cx cy.
  split_tests; f_equal; lia.
Qed.

Lemma swapQuadrants_spec A (m : Mat A) : mat_eq (swapQuadrants m) (centerQuadrants m).
Proof.
  split; [reflexivity | split; [reflexivity | apply swapQuadrants_at]].
Qed.

(** The exchange undoes itself, whatever the dimensions: the four
    quadrants have the same size. *)
Lemma swapQuadrants_twice A (m : Mat A) (y x : nat) :
  at_ (swapQuadrants (swapQuadrants m)) y x = at_ m y x.
Proof.
  rewrite swapQuadrants_at.
  unfold centerQuadrants at 1. cbn [at_ rows cols].
  rewrite swapQuadrants_rows, swapQuadrants_cols.
  destruct ((y <? 2 * (rows m / 2)) && (x <? 2 * (cols m / 2)))%nat eqn:E.
  - rewrite swapQuadrants_at. unfold centerQuadrants. cbn [at_].
    apply andb_prop in E. destruct E as [Ey Ex].
    apply Nat.ltb_lt in Ey, Ex.
    revert Ey Ex.
    generalize (cols m / 2)%nat (rows m / 2)%nat; intros cx cy Ey Ex.
    split_tests; f_equal; lia.
  - rewrite swapQuadrants_at. unfold centerQuadrants. cbn [at_].
    rewrite E. reflexivity.
Qed.

(** C8: on a grid whose width and height are both even, the quadrant
    exchange of [getWienerFilter], applied twice, gives back the grid:
    the same dimensions and the same cell at every position. *)
Theorem swapQuadrants_involutive A (m : Mat A) :
  Nat.even (cols m) = true -> Nat.even (rows m) = true ->
  mat_eq (swapQuadrants (swapQuadrants m)) m.
Proof.
  intros _ _.
  split; [reflexivity | split; [reflexivity | apply swapQuadrants_twice]].
Qed.

Lemma swapQuadrants_involutive_witness :
  mat_eq (swapQuadrants (swapQuadrants grid2x2)) grid2x2.
Proof.
  exact (swapQuadrants_involutive nat grid2x2 eq_refl eq_refl).
Defined.

Lemma odd_half (n : nat) : Nat.odd n = true -> (n - 1 = 2 * (n / 2))%nat.
Proof.
  intros H. apply Nat.odd_spec in H. destruct H as [k ->].
  replace (2 * k + 1)%nat with (1 + k * 2)%nat by lia.
  rewrite Nat.div_add by lia. simpl. lia.
Qed.

Lemma centerQuadrants_outside A (m : Mat A) (y x : nat) :
  (2 * (rows m / 2) <= y \/ 2 * (cols m / 2) <= x)%nat ->
  at_ (centerQuadrants m) y x = at_ m y x.
Proof.
  intros H. unfold centerQuadrants. cbn [at_].
  destruct (Nat.ltb_spec y (2 * (rows m / 2))), (Nat.ltb_spec x (2 * (cols m / 2)));
    cbn [andb]; try reflexivity; lia.
Qed.

(** C10: the quadrant exchange of [getWienerFilter] takes the floored
    halves [cols/2] and [rows/2] as the boundaries of the quadrants: it
    is the diagonal exchange of the four quadrants of that size and of
    nothing else, so with an odd width the last column, and with an odd
    height the last row, keep every cell. *)
Theorem swapQuadrants_odd_dimensions A (m : Mat A) :
  mat_eq (swapQuadrants m) (centerQuadrants m) /\
  (forall y, Nat.odd (cols m) = true ->
     at_ (swapQuadrants m) y (cols m - 1) = at_ m y (cols m - 1)) /\
  (forall x, Nat.odd (rows m) = true ->
     at_ (swapQuadrants m) (rows m - 1) x = at_ m (rows m - 1) x).
Proof.
  split; [apply swapQuadrants_spec | split].
  - intros y H. rewrite swapQuadrants_at. apply centerQuadrants_outside.
    right. rewrite (odd_half _ H). lia.
  - intros x H. rewrite swapQuadrants_at. apply centerQuadrants_outside.
    left. rewrite (odd_half _ H). lia.
Qed.

(** ** Sums *)


Lemma csum_ext (n : nat) (f g : nat -> cval) :
  (forall i, (i < n)%nat -> f i = g i) -> csum n f = csum n g.
Proof.
  induction n as [|n IH]; intros H; simpl; [reflexivity|].
  rewrite IH, H by auto with arith. reflexivity.
Qed.

(** The transform depends on the cells inside the dimensions only. *)
Lemma dft_ext (a b : Mat cval) (flags : Z) :
  mat_equiv a b -> mat_eq (dft a flags) (dft b flags).
Proof.
  intros (Hr & Hc & Hat). unfold dft. rewrite <- Hr, <- Hc.
  assert (E : forall sgn u v,
    csum (rows a) (fun y => csum (cols a) (fun x =>
      cmul (at_ a y x) (cis (sgn * angle (rows a) (cols a) u v y x)))) =
    csum (rows a) (fun y => csum (cols a) (fun x =>
      cmul (at_ b y x) (cis (sgn * angle (rows a) (cols a) u v y x))))).
  { intros sgn u v. apply csum_ext; intros y Hy. apply csum_ext; intros x Hx.
    rewrite Hat by assumption. reflexivity. }
  destruct (has_flag flags DFT_SCALE); (split; [reflexivity | split; [reflexivity|]]);
    intros u v; cbn [at_]; rewrite E; reflexivity.
Qed.

(** ** The construction follows the steps of the specification *)

(** C1: with a radius that [cv::circle] accepts, [getWienerFilter]
    returns the construction of section 4.4 for the radius and the noise
    term of the sliders: disk kernel, quadrant centering of the kernel
    before the transform, forward transform (as line 135 calls it), real
    plane [H], [degrad = |H|^2 + 1/snr] and the quotient [H / degrad],
    cell by cell. *)
Theorem getWienerFilter_steps
    (raster : nat -> nat -> Point -> Z -> Z -> Z -> nat -> nat -> bool)
    (g : Globals) (bbox : Size) (imgOut : Mat fval) :
  (0 <= radius_slider g)%Z ->
  exists m,
    getWienerFilter raster g bbox imgOut = Ok m /\
    mat_eq m (buildWienerFilter raster bbox (radius_slider g) (snr_slider g)).
Proof.
  intros Hpos.
  unfold getWienerFilter, buildWienerFilter, buildDiskPSF, circle.
  replace (0 <=? radius_slider g)%Z with true by (symmetry; apply Z.leb_le; lia).
  change (-1 <=? MAX_THICKNESS)%Z with true.
  cbn [andb bind].
  eexists. split; [reflexivity|].
  match goal with
  | |- mat_eq (divide (fst (split (dft ?a 0))) _) (mkMat _ _ (fun y x =>
         fdiv (fst (at_ (dft ?b 0) y x)) _)) =>
      assert (E : mat_eq (dft a 0) (dft b 0))
  end.
  { apply dft_ext. split; [reflexivity | split; [reflexivity|]].
    intros y x _ _. cbn [merge mat_zip at_ fst snd clone zeros mat_fill].
    rewrite swapQuadrants_at. reflexivity. }
  destruct E as (Er & Ec & Eat).
  split; [exact Er | split; [exact Ec |]].
  intros y x.
  cbn [divide mat_zip at_ split fst snd mat_map mat_add_scalar pow2 mat_abs].
  rewrite Eat. reflexivity.
Qed.

Lemma getWienerFilter_steps_witness :
  exists m,
    getWienerFilter disk_raster default_sliders (mkSize 4 4) no_image = Ok m /\
    mat_eq m (buildWienerFilter disk_raster (mkSize 4 4)
                (radius_slider default_sliders) (snr_slider default_sliders)).
Proof.
  apply (getWienerFilter_steps disk_raster default_sliders (mkSize 4 4) no_image).
  discriminate.
Defined.

(** ** Finite samples and real sums *)

Lemma is_zero_false (r : R) : r <> 0 -> is_zero r = false.
Proof. intros H. unfold is_zero. destruct (Req_dec_T r 0); [contradiction | reflexivity]. Qed.

Lemma is_zero_true (r : R) : r = 0 -> is_zero r = true.
Proof. intros H. unfold is_zero. destruct (Req_dec_T r 0); [reflexivity | contradiction]. Qed.

Lemma is_neg_false (r : R) : 0 <= r -> is_neg r = false.
Proof. intros H. unfold is_neg. destruct (Rlt_dec r 0); [lra | reflexivity]. Qed.

Lemma fdiv_Fin (x y : R) : y <> 0 -> fdiv (Fin x) (Fin y) = Fin (x / y).
Proof. intros H. unfold fdiv. rewrite (is_zero_false _ H). reflexivity. Qed.

Lemma fsum_Fin (n : nat) (f : nat -> fval) (g : nat -> R) :
  (forall i, (i < n)%nat -> f i = Fin (g i)) -> fsum n f = Fin (rsum n g).
Proof.
  induction n as [|n IH]; intros H; simpl; [reflexivity|].
  rewrite IH, H by auto with arith. reflexivity.
Qed.

Lemma sum_Fin (m : Mat fval) (c : nat -> nat -> R) :
  (forall y x, (y < rows m)%nat -> (x < cols m)%nat -> at_ m y x = Fin (c y x)) ->
  sum m = Fin (rsum (rows m) (fun y => rsum (cols m) (fun x => c y x))).
Proof.
  intros H. unfold sum. apply fsum_Fin. intros y Hy.
  apply fsum_Fin. intros x Hx. apply H; assumption.
Qed.

Lemma rsum_ext (n : nat) (f g : nat -> R) :
  (forall i, (i < n)%nat -> f i = g i) -> rsum n f = rsum n g.
Proof.
  induction n as [|n IH]; intros H; simpl; [reflexivity|].
  rewrite IH, H by auto with arith. reflexivity.
Qed.

Lemma rsum_scal (n : nat) (f : nat -> R) (k : R) :
  rsum n (fun i => f i * k) = rsum n f * k.
Proof.
  induction n as [|n IH]; simpl; [ring|]. rewrite IH. ring.
Qed.

Lemma rsum_nonneg (n : nat) (f : nat -> R) :
  (forall i, (i < n)%nat -> 0 <= f i) -> 0 <= rsum n f.
Proof.
  induction n as [|n IH]; intros H; simpl; [lra|].
  assert (0 <= rsum n f) by auto with arith.
  assert (0 <= f n) by auto with arith. lra.
Qed.

Lemma rsum_pos (n k : nat) (f : nat -> R) :
  (forall i, (i < n)%nat -> 0 <= f i) -> (k < n)%nat -> 0 < f k -> 0 < rsum n f.
Proof.
  induction n as [|n IH]; intros H Hk Hpos; [lia|]. simpl.
  assert (Hn : forall i, (i < n)%nat -> 0 <= f i) by auto with arith.
  destruct (Nat.eq_dec k n) as [-> | Hne].
  - pose proof (rsum_nonneg n f Hn). lra.
  - assert (0 < rsum n f) by (apply IH; auto; lia).
    assert (0 <= f n) by auto with arith. lra.
Qed.

(** ** The disk kernel *)

Lemma disk_raster_center : paints_center disk_raster.
Proof.
  intros r c p radius Hr _ _. unfold disk_raster. cbn zeta.
  apply Z.leb_le. nia.
Qed.

Section Kernel.

Variable raster : nat -> nat -> Point -> Z -> Z -> Z -> nat -> nat -> bool.
Variable g : Globals.
Variable bbox : Size.

Lemma circle_ok (img : Mat fval) (p : Point) (color : fval) :
  (0 <= radius_slider g)%Z ->
  circle raster img p (radius_slider g) color (-1) 5 =
  Ok (mkMat (rows img) (cols img)
        (fun y x => if raster (rows img) (cols img) p (radius_slider g) (-1) 5 y x
                    then color else at_ img y x)).
Proof.
  intros H. unfold circle.
  replace (0 <=? radius_slider g)%Z with true by (symmetry; apply Z.leb_le; lia).
  reflexivity.
Qed.

Lemma circle_raise (img : Mat fval) (p : Point) (color : fval) :
  (radius_slider g < 0)%Z ->
  circle raster img p (radius_slider g) color (-1) 5 = Raise StsAssert.
Proof.
  intros H. unfold circle.
  replace (0 <=? radius_slider g)%Z with false by (symmetry; apply Z.leb_gt; lia).
  reflexivity.
Qed.

Lemma raw_nonneg (y x : nat) : 0 <= raw raster g bbox y x.
Proof. unfold raw. destruct (painted raster g bbox y x); lra. Qed.

Lemma total_nonneg : 0 <= total raster g bbox.
Proof.
  apply rsum_nonneg. intros y _. apply rsum_nonneg. intros x _. apply raw_nonneg.
Qed.

(** The divisor of line 113 is positive as soon as the centre is painted. *)
Lemma total_pos :
  paints_center raster -> (0 <= radius_slider g)%Z ->
  (0 < width bbox)%nat -> (0 < height bbox)%nat -> 0 < total raster g bbox.
Proof.
  intros Hc Hr Hw Hh.
  assert (Hy : (height bbox / 2 < height bbox)%nat) by (apply Nat.div_lt; lia).
  assert (Hx : (width bbox / 2 < width bbox)%nat) by (apply Nat.div_lt; lia).
  apply rsum_pos with (k := (height bbox / 2)%nat); [| exact Hy |].
  - intros y _. apply rsum_nonneg. intros x _. apply raw_nonneg.
  - apply rsum_pos with (k := (width bbox / 2)%nat); [| exact Hx |].
    + intros x _. apply raw_nonneg.
    + unfold raw, painted.
      rewrite (Hc (height bbox) (width bbox)
                 (mkPoint (width bbox / 2) (height bbox / 2))) by assumption.
      lra.
Qed.


(** The kernel of line 113 when the radius is accepted. *)
Lemma getPSF_ok :
  (0 <= radius_slider g)%Z -> getPSF raster g bbox = Ok (kernel raster g bbox).
Proof.
  intros H. unfold getPSF. rewrite circle_ok by assumption.
  cbn [bind]. f_equal.
  unfold mat_div_scalar, mat_map. cbn [rows cols at_ mat_fill].
  rewrite (sum_Fin _ (raw raster g bbox)).
  - reflexivity.
  - intros y x _ _. cbn [at_ rows cols mat_fill]. unfold raw, painted.
    destruct (raster _ _ _ _ _ _ y x); reflexivity.
Qed.

Lemma getPSF_raise :
  (radius_slider g < 0)%Z -> getPSF raster g bbox = Raise StsAssert.
Proof.
  intros H. unfold getPSF. rewrite circle_raise by assumption. reflexivity.
Qed.

(** With a positive divisor every cell of the kernel is finite. *)
Lemma psf_cell (y x : nat) :
  0 < total raster g bbox ->
  fdiv (if painted raster g bbox y x then Fin 255 else Fin 0) (Fin (total raster g bbox))
  = Fin (raw raster g bbox y x / total raster g bbox).
Proof.
  intros H. unfold raw. destruct (painted raster g bbox y x); apply fdiv_Fin; lra.
Qed.

Lemma kernel_cell (y x : nat) :
  0 < total raster g bbox ->
  at_ (kernel raster g bbox) y x = Fin (raw raster g bbox y x / total raster g bbox).
Proof. apply psf_cell. Qed.

(** The cells of the kernel add up to one. *)
Lemma psf_sum_one :
  0 < total raster g bbox -> sum (kernel raster g bbox) = Fin 1.
Proof.
  intros Hpos.
  rewrite (sum_Fin _ (fun y x => raw raster g bbox y x * / total raster g bbox)).
  - cbn [rows cols kernel]. f_equal.
    rewrite (rsum_ext _ _ (fun y => rsum (width bbox) (fun x => raw raster g bbox y x)
                                     * / total raster g bbox)).
    + rewrite rsum_scal. fold (total raster g bbox). field. lra.
    + intros y _. apply rsum_scal.
  - intros y x _ _. apply kernel_cell. exact Hpos.
Qed.


End Kernel.

(** C4: with a radius of at least one and a size that contains the disk,
    when the centre of the disk is among the painted cells, the kernel
    of line 113 is returned, its cells add up to one and every cell
    that line 112 did not paint is zero. *)
Theorem psf_normalized
    (raster : nat -> nat -> Point -> Z -> Z -> Z -> nat -> nat -> bool)
    (g : Globals) (bbox : Size) :
  paints_center raster ->
  (1 <= radius_slider g)%Z ->
  (2 * radius_slider g < Z.of_nat (width bbox))%Z ->
  (2 * radius_slider g < Z.of_nat (height bbox))%Z ->
  exists psf,
    getPSF raster g bbox = Ok psf /\
    sum psf = Fin 1 /\
    forall y x, painted raster g bbox y x = false -> at_ psf y x = Fin 0.
Proof.
  intros Hc Hr Hw Hh.
  assert (Hpos : 0 < total raster g bbox) by (apply total_pos; [assumption | lia ..]).
  eexists. split; [apply getPSF_ok; lia | split].
  - apply psf_sum_one. exact Hpos.
  - intros y x Hp. cbn [at_ kernel]. rewrite Hp. rewrite fdiv_Fin by lra. f_equal. field. lra.
Qed.

Lemma psf_normalized_witness :
  exists psf,
    getPSF disk_raster (mkGlobals 1 1200) (mkSize 4 4) = Ok psf /\
    sum psf = Fin 1 /\
    forall y x, painted disk_raster (mkGlobals 1 1200) (mkSize 4 4) y x = false ->
                at_ psf y x = Fin 0.
Proof.
  apply (psf_normalized disk_raster (mkGlobals 1 1200) (mkSize 4 4) disk_raster_center);
    simpl; lia.
Defined.

(** ** Algebra of exact complex numbers *)

Ltac cx_ring :=
  intros;
  repeat match goal with z : Cx |- _ => destruct z end;
  unfold Cadd, Cmul, Cscal, cisR; cbn [fst snd];
  f_equal; ring.

Lemma Cadd_comm (a b : Cx) : Cadd a b = Cadd b a.
Proof. cx_ring. Qed.

Lemma Cadd_assoc (a b c : Cx) : Cadd a (Cadd b c) = Cadd (Cadd a b) c.
Proof. cx_ring. Qed.

Lemma Cadd_0_l (a : Cx) : Cadd (0, 0) a = a.
Proof. cx_ring. Qed.

Lemma Cadd_0_r (a : Cx) : Cadd a (0, 0) = a.
Proof. cx_ring. Qed.

Lemma Cmul_comm (a b : Cx) : Cmul a b = Cmul b a.
Proof. cx_ring. Qed.

Lemma Cmul_assoc (a b c : Cx) : Cmul a (Cmul b c) = Cmul (Cmul a b) c.
Proof. cx_ring. Qed.

Lemma Cmul_1_r (a : Cx) : Cmul a (1, 0) = a.
Proof. cx_ring. Qed.

Lemma Cmul_0_l (a : Cx) : Cmul (0, 0) a = (0, 0).
Proof. cx_ring. Qed.

Lemma Cmul_0_r (a : Cx) : Cmul a (0, 0) = (0, 0).
Proof. cx_ring. Qed.

Lemma Cmul_add_distr_r (a b c : Cx) : Cmul (Cadd a b) c = Cadd (Cmul a c) (Cmul b c).
Proof. cx_ring. Qed.

Lemma Cmul_add_distr_l (a b c : Cx) : Cmul c (Cadd a b) = Cadd (Cmul c a) (Cmul c b).
Proof. cx_ring. Qed.

Lemma Cscal_add (k : R) (a b : Cx) : Cscal k (Cadd a b) = Cadd (Cscal k a) (Cscal k b).
Proof. cx_ring. Qed.

Lemma Cscal_mul_l (k : R) (a b : Cx) : Cmul (Cscal k a) b = Cscal k (Cmul a b).
Proof. cx_ring. Qed.

Lemma Csum_ext (n : nat) (f g : nat -> Cx) :
  (forall i, (i < n)%nat -> f i = g i) -> Csum n f = Csum n g.
Proof.
  induction n as [|n IH]; intros H; simpl; [reflexivity|].
  rewrite IH, H by auto with arith. reflexivity.
Qed.

Lemma Csum_zero (n : nat) : Csum n (fun _ => (0, 0)) = (0, 0).
Proof.
  induction n as [|n IH]; simpl; [reflexivity|]. rewrite IH. apply Cadd_0_l.
Qed.

Lemma Csum_add (n : nat) (f g : nat -> Cx) :
  Csum n (fun i => Cadd (f i) (g i)) = Cadd (Csum n f) (Csum n g).
Proof.
  induction n as [|n IH]; simpl; [cx_ring|]. rewrite IH. cx_ring.
Qed.

Lemma Csum_mul_r (n : nat) (f : nat -> Cx) (c : Cx) :
  Csum n (fun i => Cmul (f i) c) = Cmul (Csum n f) c.
Proof.
  induction n as [|n IH]; simpl; [cx_ring|]. rewrite IH. cx_ring.
Qed.

Lemma Csum_mul_l (n : nat) (f : nat -> Cx) (c : Cx) :
  Csum n (fun i => Cmul c (f i)) = Cmul c (Csum n f).
Proof.
  induction n as [|n IH]; simpl; [cx_ring|]. rewrite IH. cx_ring.
Qed.

Lemma Csum_scal (n : nat) (f : nat -> Cx) (k : R) :
  Csum n (fun i => Cscal k (f i)) = Cscal k (Csum n f).
Proof.
  induction n as [|n IH]; simpl; [cx_ring|]. rewrite IH. cx_ring.
Qed.

(** The order of two nested sums may be exchanged. *)
Lemma Csum_swap (m n : nat) (f : nat -> nat -> Cx) :
  Csum m (fun i => Csum n (fun j => f i j)) = Csum n (fun j => Csum m (fun i => f i j)).
Proof.
  induction m as [|m IH]; simpl.
  - symmetry. apply Csum_zero.
  - rewrite IH. symmetry. apply Csum_add.
Qed.

(** A sum whose terms vanish except at [k] is its term at [k]. *)
Lemma Csum_single (n k : nat) (f : nat -> Cx) :
  (k < n)%nat -> (forall i, (i < n)%nat -> i <> k -> f i = (0, 0)) -> Csum n f = f k.
Proof.
  induction n as [|n IH]; intros Hk H; [lia|]. simpl.
  destruct (Nat.eq_dec k n) as [-> | Hne].
  - rewrite (Csum_ext n f (fun _ => (0, 0))).
    + rewrite Csum_zero. apply Cadd_0_l.
    + intros i Hi. apply H; lia.
  - rewrite IH by (try lia; intros; apply H; lia).
    rewrite (H n) by lia. apply Cadd_0_r.
Qed.

Lemma Csum_const (n : nat) (c : Cx) : Csum n (fun _ => c) = Cscal (INR n) c.
Proof.
  induction n as [|n IH].
  - simpl. cx_ring.
  - cbn [Csum]. rewrite IH, S_INR. cx_ring.
Qed.

(** *** Roots of unity *)

Lemma cisR_add (a b : R) : cisR (a + b) = Cmul (cisR a) (cisR b).
Proof.
  unfold cisR, Cmul. cbn [fst snd]. rewrite cos_plus, sin_plus. f_equal; ring.
Qed.

Lemma cisR_0 : cisR 0 = (1, 0).
Proof. unfold cisR. rewrite cos_0, sin_0. reflexivity. Qed.

Lemma cisR_pow (t : R) (n : nat) : cisR (INR n * t) = Cpow (cisR t) n.
Proof.
  induction n as [|n IH].
  - simpl. rewrite Rmult_0_l. apply cisR_0.
  - rewrite S_INR. replace ((INR n + 1) * t) with (INR n * t + t) by ring.
    rewrite cisR_add, IH. reflexivity.
Qed.

Lemma cisR_turns (n : nat) : cisR (2 * PI * INR n) = (1, 0).
Proof.
  unfold cisR.
  replace (2 * PI * INR n) with (0 + 2 * INR n * PI) by ring.
  rewrite cos_period, sin_period, cos_0, sin_0. reflexivity.
Qed.

Lemma cisR_neg (t : R) : cisR (- t) = (cos t, - sin t).
Proof. unfold cisR. rewrite cos_neg, sin_neg. reflexivity. Qed.

Lemma cisR_turns_diff (a b : nat) : cisR (2 * PI * (INR a - INR b)) = (1, 0).
Proof.
  replace (2 * PI * (INR a - INR b)) with (2 * PI * INR a + - (2 * PI * INR b)) by ring.
  rewrite cisR_add, cisR_turns, cisR_neg.
  pose proof (cisR_turns b) as H. unfold cisR in H. injection H as Hc Hs.
  rewrite Hc, Hs. cx_ring.
Qed.

(** The geometric sum. *)
Lemma Cpow_geometric (z : Cx) (n : nat) :
  Cmul (Cadd z (-1, 0)) (Csum n (Cpow z)) = Cadd (Cpow z n) (-1, 0).
Proof.
  induction n as [|n IH].
  - simpl. cx_ring.
  - cbn [Csum Cpow]. rewrite Cmul_add_distr_l, IH.
    destruct z as [a b], (Cpow (a, b) n) as [p q]. cx_ring.
Qed.

Lemma cos_lt_1 (t : R) : -(2 * PI) < t < 2 * PI -> t <> 0 -> cos t < 1.
Proof.
  intros [Hlo Hhi] Hne.
  replace t with (2 * (t / 2)) by field.
  rewrite cos_2a_sin.
  assert (Hs : sin (t / 2) <> 0).
  { destruct (Rlt_dec 0 t) as [Hpos | Hneg].
    - assert (0 < sin (t / 2)) by (apply sin_gt_0; lra). lra.
    - assert (0 < sin (- (t / 2))) by (apply sin_gt_0; lra).
      rewrite sin_neg in *. lra. }
  assert (0 < sin (t / 2) * sin (t / 2)) by nra.
  lra.
Qed.

(** The powers of a root of unity other than one add up to zero. *)
Lemma root_sum_zero (z : Cx) (n : nat) :
  Cpow z n = (1, 0) -> fst z < 1 -> Csum n (Cpow z) = (0, 0).
Proof.
  intros Hn Hlt. pose proof (Cpow_geometric z n) as G. rewrite Hn in G.
  destruct z as [c s], (Csum n (Cpow (c, s))) as [p q].
  unfold Cmul, Cadd in G. cbn [fst snd] in *.
  injection G as G1 G2.
  assert (Hd : 0 < (c - 1) * (c - 1) + s * s) by nra.
  assert (Hp : ((c - 1) * (c - 1) + s * s) * p = 0).
  { replace (((c - 1) * (c - 1) + s * s) * p)
      with ((c - 1) * ((c + -1) * p - (s + 0) * q) + s * ((c + -1) * q + (s + 0) * p))
      by ring.
    rewrite G1, G2. ring. }
  assert (Hq : ((c - 1) * (c - 1) + s * s) * q = 0).
  { replace (((c - 1) * (c - 1) + s * s) * q)
      with ((c - 1) * ((c + -1) * q + (s + 0) * p) - s * ((c + -1) * p - (s + 0) * q))
      by ring.
    rewrite G1, G2. ring. }
  apply Rmult_integral in Hp. apply Rmult_integral in Hq.
  f_equal; [destruct Hp | destruct Hq]; lra.
Qed.

(** Orthogonality of the kernel of the transform along one axis. *)
Lemma kernel_orthogonal (N a b : nat) :
  (a < N)%nat -> (b < N)%nat ->
  Csum N (fun u => cisR (INR u * (2 * PI * (INR a - INR b) / INR N))) =
  if Nat.eq_dec a b then (INR N, 0) else (0, 0).
Proof.
  intros Ha Hb.
  assert (HN : 0 < INR N) by (apply lt_0_INR; lia).
  destruct (Nat.eq_dec a b) as [-> | Hne].
  - rewrite (Csum_ext _ _ (fun _ => (1, 0))).
    + rewrite Csum_const. cx_ring.
    + intros u _. replace (INR u * (2 * PI * (INR b - INR b) / INR N)) with 0
        by (field; lra).
      apply cisR_0.
  - rewrite (Csum_ext _ _ (Cpow (cisR (2 * PI * (INR a - INR b) / INR N))))
      by (intros; apply cisR_pow).
    apply root_sum_zero.
    + rewrite <- cisR_pow.
      replace (INR N * (2 * PI * (INR a - INR b) / INR N))
        with (2 * PI * (INR a - INR b)) by (field; lra).
      apply cisR_turns_diff.
    + cbn [cisR fst]. 
      assert (Ha' : 0 <= INR a < INR N) by (split; [apply pos_INR | apply lt_INR; lia]).
      assert (Hb' : 0 <= INR b < INR N) by (split; [apply pos_INR | apply lt_INR; lia]).
      assert (Hab : INR a - INR b <> 0).
      { intros E. apply Hne. apply INR_eq. lra. }
      pose proof PI_RGT_0 as Hpi.
      assert (Hq : -1 < (INR a - INR b) / INR N < 1).
      { split.
        - apply Rmult_lt_reg_r with (INR N); [lra|]. field_simplify; lra.
        - apply Rmult_lt_reg_r with (INR N); [lra|]. field_simplify; lra. }
      apply cos_lt_1.
      * replace (2 * PI * (INR a - INR b) / INR N)
          with (2 * PI * ((INR a - INR b) / INR N)) by (field; lra).
        split; nra.
      * intros E.
        assert (E' : 2 * PI * (INR a - INR b) = 0).
        { replace (2 * PI * (INR a - INR b))
            with (2 * PI * (INR a - INR b) / INR N * INR N) by (field; lra).
          rewrite E. ring. }
        assert (PI * (INR a - INR b) <> 0) by (apply Rmult_integral_contrapositive; lra).
        lra.
Qed.

(** *** Inversion of the double sum *)

Lemma Csum2_linear (M N : nat) (t : nat -> nat -> Cx) (k : R) (c : Cx) :
  Cmul (Cscal k (Csum M (fun y => Csum N (fun x => t y x)))) c =
  Csum M (fun y => Csum N (fun x => Cmul (Cscal k (t y x)) c)).
Proof.
  rewrite <- Csum_scal, <- Csum_mul_r. apply Csum_ext. intros y _.
  rewrite <- Csum_scal, <- Csum_mul_r. reflexivity.
Qed.

Lemma Csum4_swap (M N M' N' : nat) (f : nat -> nat -> nat -> nat -> Cx) :
  Csum M (fun u => Csum N (fun v => Csum M' (fun y => Csum N' (fun x => f u v y x)))) =
  Csum M' (fun y => Csum N' (fun x => Csum M (fun u => Csum N (fun v => f u v y x)))).
Proof.
  rewrite (Csum_ext M _
    (fun u => Csum M' (fun y => Csum N (fun v => Csum N' (fun x => f u v y x)))))
    by (intros u _; apply (Csum_swap N M' (fun v y => Csum N' (fun x => f u v y x)))).
  rewrite (Csum_swap M M'
    (fun u y => Csum N (fun v => Csum N' (fun x => f u v y x)))).
  apply Csum_ext. intros y _.
  rewrite (Csum_ext M _ (fun u => Csum N' (fun x => Csum N (fun v => f u v y x))))
    by (intros u _; apply (Csum_swap N N' (fun v x => f u v y x))).
  apply (Csum_swap M N' (fun u x => Csum N (fun v => f u v y x))).
Qed.

Lemma Csum2_product (M N : nat) (a b : nat -> Cx) (c : Cx) :
  Csum M (fun u => Csum N (fun v => Cmul c (Cmul (a u) (b v)))) =
  Cmul c (Cmul (Csum M a) (Csum N b)).
Proof.
  rewrite (Csum_ext M _ (fun u => Cmul (Cmul c (Csum N b)) (a u))).
  - rewrite Csum_mul_l. cx_ring.
  - intros u _.
    rewrite (Csum_ext N _ (fun v => Cmul (Cmul c (a u)) (b v)))
      by (intros; apply Cmul_assoc).
    rewrite Csum_mul_l. cx_ring.
Qed.

(** The scaled forward sum followed by the inverse sum gives back every
    cell inside the dimensions. *)
Lemma rdft_inverse (M N : nat) (G : nat -> nat -> Cx) (y' x' : nat) :
  (y' < M)%nat -> (x' < N)%nat ->
  rdft 1 M N (fun u v => Cscal (1 / INR (M * N)) (rdft (-1) M N G u v)) y' x' = G y' x'.
Proof.
  intros Hy Hx.
  assert (HM : 0 < INR M) by (apply lt_0_INR; lia).
  assert (HN : 0 < INR N) by (apply lt_0_INR; lia).
  unfold rdft.
  rewrite (Csum_ext M _ (fun u => Csum N (fun v =>
    Csum M (fun y => Csum N (fun x =>
      Cmul (Cscal (1 / INR (M * N)) (G y x))
        (Cmul (cisR (INR u * (2 * PI * (INR y' - INR y) / INR M)))
              (cisR (INR v * (2 * PI * (INR x' - INR x) / INR N))))))))).
  2:{ intros u _. apply Csum_ext. intros v _.
      rewrite Csum2_linear. apply Csum_ext. intros y _. apply Csum_ext. intros x _.
      rewrite <- cisR_add.
      replace (INR u * (2 * PI * (INR y' - INR y) / INR M) +
               INR v * (2 * PI * (INR x' - INR x) / INR N))
        with (-1 * angle M N u v y x + 1 * angle M N y' x' u v)
        by (unfold angle; field; lra).
      rewrite cisR_add. cx_ring. }
  rewrite Csum4_swap.
  rewrite (Csum_ext M _ (fun y => Csum N (fun x =>
    Cmul (Cscal (1 / INR (M * N)) (G y x))
      (Cmul (if Nat.eq_dec y' y then (INR M, 0) else (0, 0))
            (if Nat.eq_dec x' x then (INR N, 0) else (0, 0)))))).
  2:{ intros y Hy'. apply Csum_ext. intros x Hx'.
      rewrite Csum2_product.
      rewrite (kernel_orthogonal M y' y), (kernel_orthogonal N x' x) by assumption.
      reflexivity. }
  rewrite (Csum_single M y').
  - rewrite (Csum_single N x').
    + destruct (Nat.eq_dec y' y'), (Nat.eq_dec x' x'); try contradiction.
      rewrite mult_INR. destruct (G y' x') as [p q].
      unfold Cmul, Cscal. cbn [fst snd]. f_equal; field; lra.
    + exact Hx.
    + intros x _ Hne. destruct (Nat.eq_dec x' x); [congruence|]. cx_ring.
  - exact Hy.
  - intros y _ Hne. destruct (Nat.eq_dec y' y); [congruence|].
    rewrite (Csum_ext N _ (fun _ => (0, 0))) by (intros; cx_ring).
    apply Csum_zero.
Qed.

(** ** The transform on finite cells *)

Lemma cadd_fin (a b : Cx) : cadd (cfin a) (cfin b) = cfin (Cadd a b).
Proof. reflexivity. Qed.

Lemma cmul_fin (a b : Cx) : cmul (cfin a) (cfin b) = cfin (Cmul a b).
Proof. reflexivity. Qed.

Lemma cscale_fin (k : R) (a : Cx) : cscale (Fin k) (cfin a) = cfin (Cscal k a).
Proof. reflexivity. Qed.

Lemma cis_fin (t : R) : cis t = cfin (cisR t).
Proof. reflexivity. Qed.

Lemma csum_fin (n : nat) (f : nat -> cval) (g : nat -> Cx) :
  (forall i, (i < n)%nat -> f i = cfin (g i)) -> csum n f = cfin (Csum n g).
Proof.
  induction n as [|n IH]; intros H; simpl; [reflexivity|].
  rewrite IH, H by auto with arith. apply cadd_fin.
Qed.

Lemma finite_toR (a : fval) : is_finite a = true -> a = Fin (toR a).
Proof. destruct a; simpl; intros H; [reflexivity | discriminate | discriminate]. Qed.

Section FiniteTransform.

Variable src : Mat cval.
Variable X : nat -> nat -> Cx.
Hypothesis src_cells :
  forall y x, (y < rows src)%nat -> (x < cols src)%nat -> at_ src y x = cfin (X y x).

Lemma dft_sum_fin (sgn : R) (u v : nat) :
  csum (rows src) (fun y => csum (cols src) (fun x =>
    cmul (at_ src y x) (cis (sgn * angle (rows src) (cols src) u v y x)))) =
  cfin (rdft sgn (rows src) (cols src) X u v).
Proof.
  unfold rdft. apply csum_fin. intros y Hy. apply csum_fin. intros x Hx.
  rewrite src_cells, cis_fin by assumption. apply cmul_fin.
Qed.

(** Without a flag: the forward sum, not scaled. *)
Lemma dft_forward (u v : nat) :
  at_ (dft src 0) u v = cfin (rdft (-1) (rows src) (cols src) X u v).
Proof. unfold dft. cbn [has_flag Z.land Z.eqb negb at_]. apply dft_sum_fin. Qed.

(** With [DFT_SCALE]: the forward sum divided by the number of cells. *)
Lemma dft_forward_scaled (u v : nat) :
  (0 < rows src)%nat -> (0 < cols src)%nat ->
  at_ (dft src DFT_SCALE) u v =
  cfin (Cscal (1 / INR (rows src * cols src)) (rdft (-1) (rows src) (cols src) X u v)).
Proof.
  intros Hr Hc. unfold dft.
  change (has_flag DFT_SCALE DFT_INVERSE) with false.
  change (has_flag DFT_SCALE DFT_SCALE) with true.
  cbn [at_]. rewrite dft_sum_fin, fdiv_Fin.
  - apply cscale_fin.
  - apply not_0_INR. nia.
Qed.

(** [cv::idft] without a flag: the inverse sum, not scaled. *)
Lemma idft_inverse (u v : nat) :
  at_ (idft src 0) u v = cfin (rdft 1 (rows src) (cols src) X u v).
Proof.
  unfold idft, dft.
  change (has_flag (Z.lor 0 DFT_INVERSE) DFT_INVERSE) with true.
  change (has_flag (Z.lor 0 DFT_INVERSE) DFT_SCALE) with false.
  cbn [at_]. apply dft_sum_fin.
Qed.

End FiniteTransform.

Lemma dft_rows (m : Mat cval) (flags : Z) : rows (dft m flags) = rows m.
Proof. unfold dft. destruct (has_flag flags DFT_SCALE); reflexivity. Qed.

Lemma dft_cols (m : Mat cval) (flags : Z) : cols (dft m flags) = cols m.
Proof. unfold dft. destruct (has_flag flags DFT_SCALE); reflexivity. Qed.

(** The pair of lines 87 and 95 on a spectrum [mid] that holds the
    scaled forward transform of [src]. *)
Lemma roundtrip_cells (src mid : Mat cval) (X : nat -> nat -> Cx) :
  rows mid = rows src -> cols mid = cols src ->
  (forall y x, (y < rows src)%nat -> (x < cols src)%nat -> at_ src y x = cfin (X y x)) ->
  (forall u v, (u < rows src)%nat -> (v < cols src)%nat ->
     at_ mid u v = at_ (dft src DFT_SCALE) u v) ->
  forall y x, (y < rows src)%nat -> (x < cols src)%nat ->
    at_ (idft mid 0) y x = cfin (X y x).
Proof.
  intros Hr Hc Hsrc Hmid y x Hy Hx.
  rewrite (idft_inverse mid
    (fun u v => Cscal (1 / INR (rows src * cols src))
                  (rdft (-1) (rows src) (cols src) X u v))).
  - rewrite Hr, Hc. rewrite rdft_inverse by assumption. reflexivity.
  - intros u v Hu Hv. rewrite Hr in Hu. rewrite Hc in Hv.
    rewrite Hmid by assumption.
    apply dft_forward_scaled; [assumption | lia | lia].
Qed.

(** [filter] through its program point. *)
Lemma filter_points (inputImg outputImg H : Mat fval) :
  filter inputImg outputImg H =
  (complexIH <- mulSpectrums (imageSpectrum inputImg) (merge (clone H, zeros (size_of H))) ;;
   Ok (fst (split (idft complexIH 0)))).
Proof. reflexivity. Qed.

Lemma merge_cells (G : Mat fval) :
  all_finite G ->
  forall y x, (y < rows G)%nat -> (x < cols G)%nat ->
    at_ (merge (clone G, zeros (size_of G))) y x = cfin (cellsOf G y x).
Proof.
  intros Hfin y x Hy Hx. cbn [merge mat_zip at_ fst snd clone zeros mat_fill].
  unfold cellsOf, cfin. cbn [fst snd]. f_equal. apply finite_toR, Hfin; assumption.
Qed.

Lemma cellsOf_back (G : Mat fval) :
  all_finite G ->
  forall y x, (y < rows G)%nat -> (x < cols G)%nat -> fst (cfin (cellsOf G y x)) = at_ G y x.
Proof.
  intros Hfin y x Hy Hx. cbn [cfin fst cellsOf]. symmetry. apply finite_toR, Hfin; assumption.
Qed.

(** The spectrum of line 87 is the forward sum divided by the number of
    cells. *)
Lemma imageSpectrum_cells (G : Mat fval) (u v : nat) :
  all_finite G -> (u < rows G)%nat -> (v < cols G)%nat ->
  at_ (imageSpectrum G) u v =
  cfin (Cscal (1 / INR (rows G * cols G)) (rdft (-1) (rows G) (cols G) (cellsOf G) u v)).
Proof.
  intros Hfin Hu Hv. unfold imageSpectrum.
  apply (dft_forward_scaled (merge (clone G, zeros (size_of G))) (cellsOf G)
           (merge_cells G Hfin)); cbn [merge mat_zip rows cols fst clone]; lia.
Qed.

(** Lines 87 and 95 with nothing in between. *)
Lemma imageSpectrum_roundtrip (G : Mat fval) :
  all_finite G -> mat_equiv (fst (split (idft (imageSpectrum G) 0))) G.
Proof.
  intros Hfin. unfold imageSpectrum.
  set (src := merge (clone G, zeros (size_of G))).
  split; [apply dft_rows | split; [apply dft_cols |]].
  intros y x Hy Hx. cbn [split fst mat_map at_ rows cols] in *.
  unfold idft in Hy, Hx. rewrite !dft_rows in Hy. rewrite !dft_cols in Hx.
  rewrite (roundtrip_cells src (dft src DFT_SCALE) (cellsOf G));
    [ apply cellsOf_back; assumption | apply dft_rows | apply dft_cols
    | exact (merge_cells G Hfin) | reflexivity | exact Hy | exact Hx ].
Qed.

(** [filter] with the transfer function that is one in every cell. *)
Lemma filter_unit (G outputImg : Mat fval) :
  all_finite G ->
  exists out, filter G outputImg (mat_fill (size_of G) (Fin 1)) = Ok out /\ mat_equiv out G.
Proof.
  intros Hfin. rewrite filter_points. unfold mulSpectrums, imageSpectrum.
  set (src := merge (clone G, zeros (size_of G))).
  rewrite dft_rows, dft_cols.
  cbn [merge mat_zip rows cols fst snd clone zeros mat_fill size_of height width src].
  rewrite !Nat.eqb_refl. cbn [andb bind]. fold src.
  eexists. split; [reflexivity|].
  split; [apply dft_rows | split; [apply dft_cols |]].
  intros y x Hy Hx. cbn [split fst mat_map at_ rows cols] in *.
  unfold idft in Hy, Hx. rewrite dft_rows in Hy. rewrite dft_cols in Hx.
  cbn [mat_zip rows cols] in Hy, Hx. rewrite dft_rows in Hy. rewrite dft_cols in Hx.
  match goal with
  | |- fst (at_ (idft ?mid 0) y x) = _ =>
      rewrite (roundtrip_cells src mid (cellsOf G));
        [ apply cellsOf_back; assumption
        | cbn [mat_zip rows]; apply dft_rows
        | cbn [mat_zip cols]; apply dft_cols
        | exact (merge_cells G Hfin) | | exact Hy | exact Hx ]
  end.
  intros u v Hu Hv. cbn [mat_zip at_ merge clone zeros mat_fill fst snd].
  rewrite (dft_forward_scaled src (cellsOf G) (merge_cells G Hfin)) by lia.
  change (Fin 1, Fin 0) with (cfin (1, 0)).
  rewrite cmul_fin, Cmul_1_r. reflexivity.
Qed.

(** C3: on every grid of finite samples, the forward transform of
    line 87 ([DFT_SCALE]) followed by the inverse transform of line 95
    has the grid as its real plane; so [filter] with the transfer
    function that is one everywhere returns its input image. *)
Theorem transform_roundtrip (G : Mat fval) :
  all_finite G ->
  mat_equiv (fst (split (idft (dft (merge (clone G, zeros (size_of G))) DFT_SCALE) 0))) G /\
  exists out, filter G no_image (mat_fill (size_of G) (Fin 1)) = Ok out /\ mat_equiv out G.
Proof.
  intros Hfin. split.
  - apply (imageSpectrum_roundtrip G Hfin).
  - apply filter_unit. exact Hfin.
Qed.

Lemma image2x2_finite : all_finite image2x2.
Proof. intros y x _ _. reflexivity. Qed.

Lemma transform_roundtrip_witness :
  mat_equiv
    (fst (split (idft (dft (merge (clone image2x2, zeros (size_of image2x2))) DFT_SCALE) 0)))
    image2x2 /\
  exists out,
    filter image2x2 no_image (mat_fill (size_of image2x2) (Fin 1)) = Ok out /\
    mat_equiv out image2x2.
Proof.
  exact (transform_roundtrip image2x2 image2x2_finite).
Defined.

(** ** From the kernel to the transfer function *)

(** [getWienerFilter] through its program points. *)
Lemma getWienerFilter_points
    (raster : nat -> nat -> Point -> Z -> Z -> Z -> nat -> nat -> bool)
    (g : Globals) (bbox : Size) (imgOut : Mat fval) :
  getWienerFilter raster g bbox imgOut =
  (psf <- getPSF raster g bbox ;; Ok (transferOf g psf)).
Proof.
  unfold getWienerFilter, getPSF.
  destruct (circle raster _ _ _ _ _ _); reflexivity.
Qed.

Lemma half_twice_le (n : nat) : (2 * (n / 2) <= n)%nat.
Proof. apply Nat.Div0.mul_div_le. Qed.

(** The exchange moves cells inside the dimensions to cells inside them. *)
Lemma swapQuadrants_inside A (P : A -> Prop) (m : Mat A) :
  (forall y x, (y < rows m)%nat -> (x < cols m)%nat -> P (at_ m y x)) ->
  forall y x, (y < rows m)%nat -> (x < cols m)%nat -> P (at_ (swapQuadrants m) y x).
Proof.
  intros H y x Hy Hx. rewrite swapQuadrants_at. unfold centerQuadrants. cbn [at_].
  pose proof (half_twice_le (rows m)). pose proof (half_twice_le (cols m)).
  destruct (Nat.ltb_spec y (2 * (rows m / 2))), (Nat.ltb_spec x (2 * (cols m / 2)));
    cbn [andb]; try (apply H; assumption).
  destruct (Nat.ltb_spec y (rows m / 2)), (Nat.ltb_spec x (cols m / 2)); apply H; lia.
Qed.

Lemma psfPlanes_cells (psf : Mat fval) :
  all_finite psf ->
  forall y x, (y < rows (psfPlanes psf))%nat -> (x < cols (psfPlanes psf))%nat ->
    at_ (psfPlanes psf) y x = cfin (cellsOf (swapQuadrants psf) y x).
Proof.
  intros Hfin y x Hy Hx. unfold psfPlanes, cellsOf, cfin.
  cbn [merge mat_zip at_ fst snd clone zeros mat_fill].
  f_equal. apply finite_toR.
  apply (swapQuadrants_inside fval (fun c => is_finite c = true) psf Hfin); assumption.
Qed.

(** The spectrum of line 135 is the forward sum of the centred kernel,
    not scaled. *)
Lemma psfSpectrum_cells (psf : Mat fval) (u v : nat) :
  all_finite psf ->
  at_ (psfSpectrum psf) u v =
  cfin (rdft (-1) (rows psf) (cols psf) (cellsOf (swapQuadrants psf)) u v).
Proof.
  intros Hfin. unfold psfSpectrum.
  apply (dft_forward (psfPlanes psf) _ (psfPlanes_cells psf Hfin)).
Qed.

(** The cell at the origin of a forward sum is the sum of the cells. *)
Lemma rdft_origin (sgn : R) (M N : nat) (X : nat -> nat -> Cx) :
  rdft sgn M N X 0 0 = Csum M (fun y => Csum N (fun x => X y x)).
Proof.
  unfold rdft. apply Csum_ext. intros y _. apply Csum_ext. intros x _.
  replace (sgn * angle M N 0 0 y x) with 0
    by (unfold angle, Rdiv; cbn [INR]; ring).
  rewrite cisR_0. apply Cmul_1_r.
Qed.

(** *** One cell of the transfer function *)

Lemma wienerCell_fin (snr : Z) (h : R) :
  (0 < snr)%Z ->
  wienerCell snr (Fin h) = Fin (h / (Rabs h * Rabs h + 1 / IZR snr)).
Proof.
  intros Hs. assert (HS : 0 < IZR snr) by (apply IZR_lt; exact Hs).
  unfold wienerCell. cbn [fabs fmul].
  rewrite (fdiv_Fin 1) by lra. cbn [fadd].
  apply fdiv_Fin.
  assert (0 < 1 / IZR snr) by (apply Rdiv_lt_0_compat; lra).
  pose proof (Rabs_pos h). nra.
Qed.

(** With the slider at zero the noise term is [+inf] and the cell is zero. *)
Lemma wienerCell_snr0 (h : R) : wienerCell 0 (Fin h) = Fin 0.
Proof.
  unfold wienerCell. cbn [fabs fmul]. unfold fdiv at 2.
  rewrite (is_zero_true 0) by reflexivity.
  rewrite (is_zero_false 1) by lra.
  reflexivity.
Qed.

Lemma wiener_amgm (a S : R) :
  0 <= a -> 0 < S -> a / (a * a + 1 / S) <= sqrt S / 2.
Proof.
  intros Ha HS.
  assert (Hs : 0 < sqrt S) by (apply sqrt_lt_R0; exact HS).
  assert (Hss : sqrt S * sqrt S = S) by (apply sqrt_sqrt; lra).
  rewrite <- Hss at 1.
  set (s := sqrt S) in *.
  assert (Hi : 0 < / s) by (apply Rinv_0_lt_compat; exact Hs).
  assert (HD : 0 < a * a + 1 / (s * s)).
  { assert (0 < 1 / (s * s)) by (apply Rdiv_lt_0_compat; nra). nra. }
  apply Rmult_le_reg_r with (a * a + 1 / (s * s)); [exact HD|].
  replace (a / (a * a + 1 / (s * s)) * (a * a + 1 / (s * s))) with a by (field; split; nra).
  assert (E : s / 2 * (a * a + 1 / (s * s)) - a = / s / 2 * ((s * a - 1) * (s * a - 1)))
    by (field; lra).
  assert (0 <= / s / 2 * ((s * a - 1) * (s * a - 1))).
  { apply Rmult_le_pos; [lra | apply Rle_0_sqr]. }
  lra.
Qed.

Lemma wienerCell_bound (snr : Z) (h : R) :
  (0 < snr)%Z ->
  Rabs (h / (Rabs h * Rabs h + 1 / IZR snr)) <= sqrt (IZR snr) / 2.
Proof.
  intros Hs. assert (HS : 0 < IZR snr) by (apply IZR_lt; exact Hs).
  assert (0 < 1 / IZR snr) by (apply Rdiv_lt_0_compat; lra).
  pose proof (Rabs_pos h) as Ha.
  assert (HD : 0 < Rabs h * Rabs h + 1 / IZR snr) by nra.
  unfold Rdiv at 1. rewrite Rabs_mult, Rabs_inv.
  rewrite (Rabs_pos_eq (Rabs h * Rabs h + 1 / IZR snr)) by lra.
  apply wiener_amgm; assumption.
Qed.

(** ** What [getWienerFilter] returns *)

Section Returns.

Variable raster : nat -> nat -> Point -> Z -> Z -> Z -> nat -> nat -> bool.
Variable g : Globals.
Variable bbox : Size.
Variable imgOut : Mat fval.

Lemma getWienerFilter_raise :
  (radius_slider g < 0)%Z -> getWienerFilter raster g bbox imgOut = Raise StsAssert.
Proof.
  intros H. rewrite getWienerFilter_points, getPSF_raise by assumption. reflexivity.
Qed.

(** No test of the noise slider: an accepted radius is all it takes. *)
Lemma getWienerFilter_value :
  (0 <= radius_slider g)%Z ->
  getWienerFilter raster g bbox imgOut = Ok (transferOf g (kernel raster g bbox)).
Proof.
  intros H. rewrite getWienerFilter_points, getPSF_ok by assumption. reflexivity.
Qed.

Lemma transferOf_rows : rows (transferOf g (kernel raster g bbox)) = height bbox.
Proof. unfold transferOf, psfSpectrum. cbn [rows]. apply dft_rows. Qed.

Lemma transferOf_cols : cols (transferOf g (kernel raster g bbox)) = width bbox.
Proof. unfold transferOf, psfSpectrum. cbn [cols]. apply dft_cols. Qed.

Lemma kernel_finite :
  paints_center raster -> (0 <= radius_slider g)%Z ->
  (0 < width bbox)%nat -> (0 < height bbox)%nat ->
  all_finite (kernel raster g bbox).
Proof.
  intros Hc Hr Hw Hh y x _ _.
  rewrite kernel_cell by (apply total_pos; assumption). reflexivity.
Qed.

(** The transfer function on a grid that has a cell. *)
Lemma transferOf_cell (y x : nat) :
  paints_center raster -> (0 <= radius_slider g)%Z ->
  (0 < width bbox)%nat -> (0 < height bbox)%nat ->
  at_ (transferOf g (kernel raster g bbox)) y x =
  wienerCell (snr_slider g) (Fin (realPlane raster g bbox y x)).
Proof.
  intros Hc Hr Hw Hh. cbn [transferOf at_].
  rewrite psfSpectrum_cells by (apply kernel_finite; assumption). reflexivity.
Qed.

End Returns.

(** C9: with a positive noise slider, when the centre of the disk is
    among the painted cells, every cell inside the transfer function that
    [getWienerFilter] returns is a finite number whose magnitude is at
    most [sqrt snr / 2], hence at most [sqrt snr]. *)
Theorem wiener_bounded
    (raster : nat -> nat -> Point -> Z -> Z -> Z -> nat -> nat -> bool)
    (g : Globals) (bbox : Size) (imgOut m : Mat fval) :
  paints_center raster ->
  (0 < snr_slider g)%Z ->
  getWienerFilter raster g bbox imgOut = Ok m ->
  forall y x, (y < rows m)%nat -> (x < cols m)%nat ->
    exists w, at_ m y x = Fin w /\
              Rabs w <= sqrt (IZR (snr_slider g)) / 2 /\
              Rabs w <= sqrt (IZR (snr_slider g)).
Proof.
  intros Hc Hs Hm y x Hy Hx.
  destruct (Z.lt_ge_cases (radius_slider g) 0) as [Hneg | Hr].
  { rewrite getWienerFilter_raise in Hm by assumption. discriminate. }
  rewrite getWienerFilter_value in Hm by assumption. injection Hm as <-.
  rewrite transferOf_rows in Hy. rewrite transferOf_cols in Hx.
  rewrite transferOf_cell, wienerCell_fin by (assumption || lia).
  eexists. split; [reflexivity|].
  pose proof (wienerCell_bound (snr_slider g) (realPlane raster g bbox y x) Hs) as Hb.
  assert (0 <= sqrt (IZR (snr_slider g))) by apply sqrt_pos.
  split; lra.
Qed.

Lemma wiener_bounded_witness :
  exists w,
    at_ (transferOf default_sliders (kernel disk_raster default_sliders (mkSize 2 2)))
      0%nat 0%nat = Fin w /\
    Rabs w <= sqrt (IZR (snr_slider default_sliders)) / 2 /\
    Rabs w <= sqrt (IZR (snr_slider default_sliders)).
Proof.
  apply (wiener_bounded disk_raster default_sliders (mkSize 2 2) no_image
           (transferOf default_sliders (kernel disk_raster default_sliders (mkSize 2 2)))
           disk_raster_center).
  - reflexivity.
  - apply getWienerFilter_value. discriminate.
  - rewrite transferOf_rows. simpl. lia.
  - rewrite transferOf_cols. simpl. lia.
Defined.

(** ** The smallest grids *)

Section OneCell.

Variable g : Globals.
Hypothesis radius_ok : (0 <= radius_slider g)%Z.

Lemma painted_1x1 : painted disk_raster g (mkSize 1 1) 0 0 = true.
Proof.
  unfold painted, disk_raster. cbn [width height pt_x pt_y Nat.div Nat.divmod fst].
  apply Z.leb_le. nia.
Qed.

Lemma total_1x1 : total disk_raster g (mkSize 1 1) = 255.
Proof.
  unfold total, raw. cbn [rsum height width]. rewrite painted_1x1. ring.
Qed.

Lemma kernel_1x1 : at_ (kernel disk_raster g (mkSize 1 1)) 0 0 = Fin 1.
Proof.
  rewrite kernel_cell by (rewrite total_1x1; lra).
  rewrite total_1x1. unfold raw. rewrite painted_1x1. f_equal. field.
Qed.

Lemma realPlane_1x1 : realPlane disk_raster g (mkSize 1 1) 0 0 = 1.
Proof.
  unfold realPlane. rewrite rdft_origin. cbn [Csum height width].
  unfold cellsOf. rewrite swapQuadrants_at.
  change (at_ (centerQuadrants (kernel disk_raster g (mkSize 1 1))) 0 0)
    with (at_ (kernel disk_raster g (mkSize 1 1)) 0 0).
  rewrite kernel_1x1. unfold Cadd. cbn [fst snd toR]. ring.
Qed.

Lemma transferOf_1x1 :
  at_ (transferOf g (kernel disk_raster g (mkSize 1 1))) 0 0
  = wienerCell (snr_slider g) (Fin 1).
Proof.
  rewrite transferOf_cell
    by (try apply disk_raster_center; try exact radius_ok; simpl; lia).
  rewrite realPlane_1x1. reflexivity.
Qed.


End OneCell.

Section TwoCells.

Variable g : Globals.
Hypothesis radius_ok : (1 <= radius_slider g)%Z.

Lemma painted_2x1 (x : nat) :
  (x < 2)%nat -> painted disk_raster g (mkSize 2 1) 0 x = true.
Proof.
  intros Hx. unfold painted, disk_raster.
  cbn [width height pt_x pt_y Nat.div Nat.divmod fst].
  apply Z.leb_le. nia.
Qed.

Lemma total_2x1 : total disk_raster g (mkSize 2 1) = 510.
Proof.
  unfold total, raw. cbn [rsum height width]. rewrite !painted_2x1 by lia. ring.
Qed.

Lemma kernel_2x1 (x : nat) :
  (x < 2)%nat -> at_ (kernel disk_raster g (mkSize 2 1)) 0 x = Fin (1 / 2).
Proof.
  intros Hx. rewrite kernel_cell by (rewrite total_2x1; lra).
  rewrite total_2x1. unfold raw. rewrite painted_2x1 by exact Hx. f_equal. field.
Qed.

(** One row has no quadrant to exchange; the cell at the origin of the
    forward sum is the sum of the kernel. *)
Lemma origin_2x1 :
  rdft (-1) 1 2 (cellsOf (swapQuadrants (kernel disk_raster g (mkSize 2 1)))) 0 0 = (1, 0).
Proof.
  rewrite rdft_origin. cbn [Csum]. unfold cellsOf. rewrite !swapQuadrants_at.
  change (at_ (centerQuadrants (kernel disk_raster g (mkSize 2 1))) 0 0)
    with (at_ (kernel disk_raster g (mkSize 2 1)) 0%nat 0%nat).
  change (at_ (centerQuadrants (kernel disk_raster g (mkSize 2 1))) 0 1)
    with (at_ (kernel disk_raster g (mkSize 2 1)) 0%nat 1%nat).
  rewrite !kernel_2x1 by lia. unfold Cadd. cbn [fst snd toR]. f_equal; field.
Qed.

End TwoCells.

(** ** Scaling of the two forward transforms *)

Lemma psf_transform_unscaled :
  getPSF disk_raster default_sliders (mkSize 2 1)
    = Ok (kernel disk_raster default_sliders (mkSize 2 1)) /\
  at_ (psfSpectrum (kernel disk_raster default_sliders (mkSize 2 1))) 0 0
    = (Fin 1, Fin 0) /\
  at_ (dft (psfPlanes (kernel disk_raster default_sliders (mkSize 2 1))) DFT_SCALE) 0 0
    = (Fin (1 / 2), Fin 0).
Proof.
  set (K := kernel disk_raster default_sliders (mkSize 2 1)).
  assert (Hr : (1 <= radius_slider default_sliders)%Z) by discriminate.
  assert (Hfin : all_finite K)
    by (apply kernel_finite; [apply disk_raster_center | discriminate | simpl; lia ..]).
  split; [apply getPSF_ok; discriminate | split].
  - rewrite psfSpectrum_cells by exact Hfin.
    change (rows K) with 1%nat. change (cols K) with 2%nat.
    unfold K. rewrite (origin_2x1 _ Hr). reflexivity.
  - rewrite (dft_forward_scaled (psfPlanes K) _ (psfPlanes_cells K Hfin))
      by (simpl; lia).
    change (rows (psfPlanes K)) with 1%nat. change (cols (psfPlanes K)) with 2%nat.
    unfold K. rewrite (origin_2x1 _ Hr).
    unfold cfin, Cscal. cbn [fst snd INR Nat.mul Nat.add].
    f_equal; f_equal; field.
Qed.

(** C2, as the code has it: the forward transform of the image in
    [filter] (line 87, [DFT_SCALE]) is the forward sum divided by the
    number of cells, and with the inverse transform of line 95 it is the
    identity on the real plane; the forward transform of the centred
    kernel in [getWienerFilter] (line 135, no flag) is the forward sum
    itself, not scaled. *)
Theorem forward_transforms (img psf : Mat fval) :
  all_finite img -> all_finite psf ->
  (forall u v, (u < rows img)%nat -> (v < cols img)%nat ->
     at_ (imageSpectrum img) u v =
     cfin (Cscal (1 / INR (rows img * cols img))
             (rdft (-1) (rows img) (cols img) (cellsOf img) u v))) /\
  mat_equiv (fst (split (idft (imageSpectrum img) 0))) img /\
  (forall u v,
     at_ (psfSpectrum psf) u v =
     cfin (rdft (-1) (rows psf) (cols psf) (cellsOf (swapQuadrants psf)) u v)).
Proof.
  intros Himg Hpsf. split; [| split].
  - intros u v Hu Hv. apply imageSpectrum_cells; assumption.
  - apply imageSpectrum_roundtrip. exact Himg.
  - intros u v. apply psfSpectrum_cells. exact Hpsf.
Qed.

Lemma forward_transforms_witness :
  (forall u v, (u < rows image2x2)%nat -> (v < cols image2x2)%nat ->
     at_ (imageSpectrum image2x2) u v =
     cfin (Cscal (1 / INR (rows image2x2 * cols image2x2))
             (rdft (-1) (rows image2x2) (cols image2x2) (cellsOf image2x2) u v))) /\
  mat_equiv (fst (split (idft (imageSpectrum image2x2) 0))) image2x2 /\
  (forall u v,
     at_ (psfSpectrum image2x2) u v =
     cfin (rdft (-1) (rows image2x2) (cols image2x2)
             (cellsOf (swapQuadrants image2x2)) u v)).
Proof.
  exact (forward_transforms image2x2 image2x2 image2x2_finite image2x2_finite).
Defined.

(** ** No test of the noise slider *)

Lemma snr_zero_returns :
  getWienerFilter disk_raster muted_sliders (mkSize 1 1) no_image
    = Ok (transferOf muted_sliders (kernel disk_raster muted_sliders (mkSize 1 1))) /\
  at_ (transferOf muted_sliders (kernel disk_raster muted_sliders (mkSize 1 1))) 0 0
    = Fin 0.
Proof.
  split.
  - apply getWienerFilter_value. discriminate.
  - rewrite transferOf_1x1 by discriminate. apply wienerCell_snr0.
Qed.

(** C6, as the code has it: [getWienerFilter] does not test the noise
    slider.  Whenever the radius is accepted it returns a transfer
    function; with the slider at zero the reciprocal is [+inf], so is
    [degrad], and every cell inside the transfer function is zero. *)
Theorem snr_unchecked
    (raster : nat -> nat -> Point -> Z -> Z -> Z -> nat -> nat -> bool)
    (g : Globals) (bbox : Size) (imgOut : Mat fval) :
  (0 <= radius_slider g)%Z ->
  exists m,
    getWienerFilter raster g bbox imgOut = Ok m /\
    (paints_center raster -> snr_slider g = 0%Z ->
     forall y x, (y < rows m)%nat -> (x < cols m)%nat -> at_ m y x = Fin 0).
Proof.
  intros Hr. exists (transferOf g (kernel raster g bbox)).
  split; [apply getWienerFilter_value; exact Hr|].
  intros Hc Hs y x Hy Hx.
  rewrite transferOf_rows in Hy. rewrite transferOf_cols in Hx.
  rewrite transferOf_cell, Hs by (assumption || lia).
  apply wienerCell_snr0.
Qed.

Lemma snr_unchecked_witness :
  exists m,
    getWienerFilter disk_raster muted_sliders (mkSize 2 2) no_image = Ok m /\
    (paints_center disk_raster -> snr_slider muted_sliders = 0%Z ->
     forall y x, (y < rows m)%nat -> (x < cols m)%nat -> at_ m y x = Fin 0).
Proof.
  apply (snr_unchecked disk_raster muted_sliders (mkSize 2 2) no_image).
  discriminate.
Defined.

(** ** No test of the divisor *)





(** ** The sliders are read, not passed *)






(** * Further properties of the code *)

(** ** Outcomes and sizes *)

(** X1: [getWienerFilter] fails exactly for a negative radius slider, with
    the assertion of [cv::circle]; otherwise it returns a matrix of the
    size it was asked for, whatever the noise slider holds. *)
Theorem getWienerFilter_outcome
    (raster : nat -> nat -> Point -> Z -> Z -> Z -> nat -> nat -> bool)
    (g : Globals) (bbox : Size) (imgOut : Mat fval) :
  (getWienerFilter raster g bbox imgOut = Raise StsAssert <-> (radius_slider g < 0)%Z) /\
  ((0 <= radius_slider g)%Z <->
   exists m, getWienerFilter raster g bbox imgOut = Ok m /\
             rows m = height bbox /\ cols m = width bbox).
Proof.
  destruct (Z.lt_ge_cases (radius_slider g) 0) as [Hneg | Hpos].
  - rewrite getWienerFilter_raise by exact Hneg. split.
    + split; [intros _; exact Hneg | reflexivity].
    + split; [lia | intros (m & Hm & _); discriminate].
  - rewrite getWienerFilter_value by exact Hpos. split.
    + split; [discriminate | lia].
    + split; [| intros _; exact Hpos].
      intros _. eexists. split; [reflexivity|].
      split; [apply transferOf_rows | apply transferOf_cols].
Qed.

Lemma mulSpectrums_filter_rows (img H : Mat fval) :
  rows (imageSpectrum img) = rows img /\ cols (imageSpectrum img) = cols img /\
  rows (merge (clone H, zeros (size_of H))) = rows H /\
  cols (merge (clone H, zeros (size_of H))) = cols H.
Proof.
  unfold imageSpectrum. rewrite dft_rows, dft_cols. repeat split.
Qed.

Lemma filter_same_size (img out H : Mat fval) :
  rows H = rows img -> cols H = cols img ->
  exists o, filter img out H = Ok o /\ rows o = rows img /\ cols o = cols img.
Proof.
  intros Hr Hc. rewrite filter_points. unfold mulSpectrums.
  destruct (mulSpectrums_filter_rows img H) as (-> & -> & -> & ->).
  rewrite Hr, Hc, !Nat.eqb_refl. cbn [andb bind].
  eexists. split; [reflexivity|].
  cbn [split fst mat_map rows cols]. unfold idft.
  rewrite dft_rows, dft_cols. cbn [mat_zip rows cols].
  unfold imageSpectrum. rewrite dft_rows, dft_cols. split; reflexivity.
Qed.

Lemma filter_other_size (img out H : Mat fval) :
  rows H <> rows img \/ cols H <> cols img -> filter img out H = Raise StsAssert.
Proof.
  intros Hne. rewrite filter_points. unfold mulSpectrums.
  destruct (mulSpectrums_filter_rows img H) as (-> & -> & -> & ->).
  destruct (Nat.eqb_spec (rows img) (rows H)), (Nat.eqb_spec (cols img) (cols H));
    cbn [andb bind]; try reflexivity.
  destruct Hne; congruence.
Qed.

(** X2: [filter] returns a grid of the size of its input image when the
    transfer function has that size, and fails with the assertion of
    [cv::mulSpectrums] when it has another size. *)
Theorem filter_size_check (img out H : Mat fval) :
  ((rows H = rows img /\ cols H = cols img) <->
   exists o, filter img out H = Ok o /\ rows o = rows img /\ cols o = cols img) /\
  ((rows H <> rows img \/ cols H <> cols img) <-> filter img out H = Raise StsAssert).
Proof.
  destruct (Nat.eq_dec (rows H) (rows img)) as [Hr | Hr];
    [destruct (Nat.eq_dec (cols H) (cols img)) as [Hc | Hc] |].
  - destruct (filter_same_size img out H Hr Hc) as (o & Ho & Hro & Hco).
    split; split.
    + intros _. exists o. repeat split; assumption.
    + intros _. split; assumption.
    + intros [E | E]; contradiction.
    + rewrite Ho. discriminate.
  - assert (Hf : filter img out H = Raise StsAssert) by (apply filter_other_size; right; exact Hc).
    split; split.
    + intros [_ E]. contradiction.
    + rewrite Hf. intros (o & Ho & _). discriminate.
    + intros _. exact Hf.
    + intros _. right. exact Hc.
  - assert (Hf : filter img out H = Raise StsAssert) by (apply filter_other_size; left; exact Hr).
    split; split.
    + intros [E _]. contradiction.
    + rewrite Hf. intros (o & Ho & _). discriminate.
    + intros _. exact Hf.
    + intros _. left. exact Hr.
Qed.

(** X3: The callbacks never hand [filter] a transfer function of the wrong
    size: with an accepted radius both return an image of the size of
    the image they were given, for every image and every noise slider,
    and with a negative radius slider both fail in [cv::circle]. *)
Theorem callbacks_keep_size
    (raster : nat -> nat -> Point -> Z -> Z -> Z -> nat -> nat -> bool)
    (g : Globals) (pos : Z) (image : Mat fval) :
  ((0 <= radius_slider g)%Z ->
   exists o,
     on_radius_trackbar raster g pos image = Ok o /\
     on_snr_trackbar raster g pos image = Ok o /\
     rows o = rows image /\ cols o = cols image) /\
  ((radius_slider g < 0)%Z ->
   on_radius_trackbar raster g pos image = Raise StsAssert /\
   on_snr_trackbar raster g pos image = Raise StsAssert).
Proof.
  split.
  - intros Hr. unfold on_radius_trackbar, on_snr_trackbar. cbv zeta.
    cbn [rect_w rect_h]. rewrite getWienerFilter_value by exact Hr. cbn [bind].
    destruct (filter_same_size (roi image (mkRect 0 0 (cols image) (rows image)))
                (zeros (mkSize 0 0))
                (transferOf g (kernel raster g (mkSize (cols image) (rows image)))))
      as (o & Ho & Hro & Hco).
    + rewrite transferOf_rows. reflexivity.
    + rewrite transferOf_cols. reflexivity.
    + exists o. repeat split; assumption.
  - intros Hr. unfold on_radius_trackbar, on_snr_trackbar. cbv zeta.
    rewrite getWienerFilter_raise by exact Hr. split; reflexivity.
Qed.

Lemma callbacks_keep_size_witness :
  exists o,
    on_radius_trackbar disk_raster default_sliders 64 image4x4 = Ok o /\
    on_snr_trackbar disk_raster default_sliders 64 image4x4 = Ok o /\
    rows o = rows image4x4 /\ cols o = cols image4x4.
Proof.
  apply (callbacks_keep_size disk_raster default_sliders 64 image4x4). discriminate.
Defined.

(** ** The exchange on thin grids and on sums *)

(** X4: A grid with fewer than two rows or fewer than two columns has empty
    quadrants: the exchange of lines 118-131 leaves every cell in place,
    so the kernel is not moved to the origin. *)
Theorem swapQuadrants_thin A (m : Mat A) :
  (rows m < 2)%nat \/ (cols m < 2)%nat ->
  mat_eq (swapQuadrants m) m.
Proof.
  intros Hthin. split; [reflexivity | split; [reflexivity |]].
  intros y x. rewrite swapQuadrants_at. apply centerQuadrants_outside.
  destruct Hthin as [H | H].
  - left. replace (rows m / 2)%nat with 0%nat by (symmetry; apply Nat.div_small; lia). lia.
  - right. replace (cols m / 2)%nat with 0%nat by (symmetry; apply Nat.div_small; lia). lia.
Qed.

Lemma swapQuadrants_thin_witness : mat_eq (swapQuadrants image3x1) image3x1.
Proof.
  apply (swapQuadrants_thin fval image3x1). left. simpl. lia.
Defined.

Lemma rsum_plus (n : nat) (f g : nat -> R) :
  rsum n (fun i => f i + g i) = rsum n f + rsum n g.
Proof.
  induction n as [|n IH]; simpl; [ring|]. rewrite IH. ring.
Qed.

Lemma rsum_split (a b : nat) (f : nat -> R) :
  rsum (a + b) f = rsum a f + rsum b (fun i => f (a + i)%nat).
Proof.
  induction b as [|b IH].
  - rewrite Nat.add_0_r. simpl. ring.
  - rewrite Nat.add_succ_r. cbn [rsum]. rewrite IH. ring.
Qed.

(** Exchanging the two halves of a range keeps the sum over it. *)
Lemma rsum_half_swap (c : nat) (f : nat -> R) :
  rsum (c + c) (fun i => f (if (i <? c)%nat then i + c else i - c)%nat) = rsum (c + c) f.
Proof.
  rewrite !rsum_split.
  rewrite (rsum_ext c _ (fun i => f (c + i)%nat)).
  - rewrite (rsum_ext c (fun i => f (if (c + i <? c)%nat then c + i + c else c + i - c)%nat) f).
    + ring.
    + intros i Hi. destruct (Nat.ltb_spec (c + i) c); [lia|]. f_equal. lia.
  - intros i Hi. destruct (Nat.ltb_spec i c); [|lia]. f_equal. lia.
Qed.

(** The exchange of four quadrants of [cy] rows and [cx] columns keeps
    the sum of a grid that has [rM] more rows and [rN] more columns. *)
Lemma rsum_quadrants (cy cx rM rN : nat) (f : nat -> nat -> R) :
  rsum (cy + cy + rM) (fun y => rsum (cx + cx + rN) (fun x =>
    if ((y <? cy + cy) && (x <? cx + cx))%nat
    then f (if (y <? cy)%nat then y + cy else y - cy)%nat
           (if (x <? cx)%nat then x + cx else x - cx)%nat
    else f y x)) =
  rsum (cy + cy + rM) (fun y => rsum (cx + cx + rN) (fun x => f y x)).
Proof.
  rewrite (rsum_split (cy + cy) rM).
  rewrite (rsum_split (cy + cy) rM (fun y => rsum _ (fun x => f y x))).
  f_equal.
  - set (A := fun y => rsum (cx + cx) (fun x => f y x)).
    set (B := fun y => rsum rN (fun x => f y (cx + cx + x)%nat)).
    rewrite (rsum_ext (cy + cy) _
      (fun y => A (if (y <? cy)%nat then y + cy else y - cy)%nat + B y)).
    + rewrite rsum_plus, (rsum_half_swap cy A), <- rsum_plus.
      apply rsum_ext. intros y _. unfold A, B.
      rewrite (rsum_split (cx + cx) rN). reflexivity.
    + intros y Hy. rewrite (rsum_split (cx + cx) rN). unfold A, B. f_equal.
      * destruct (Nat.ltb_spec y (cy + cy)); [|lia]. cbn [andb].
        rewrite <- (rsum_half_swap cx
          (fun x => f (if (y <? cy)%nat then y + cy else y - cy)%nat x)).
        apply rsum_ext. intros x Hx.
        destruct (Nat.ltb_spec x (cx + cx)); [reflexivity | lia].
      * apply rsum_ext. intros x _.
        destruct (Nat.ltb_spec (cx + cx + x) (cx + cx)); [lia|].
        rewrite andb_false_r. reflexivity.
  - apply rsum_ext. intros y _. apply rsum_ext. intros x _.
    destruct (Nat.ltb_spec (cy + cy + y) (cy + cy)); [lia | reflexivity].
Qed.

Lemma rsum_centerQuadrants (m : Mat fval) :
  rsum (rows m) (fun y => rsum (cols m) (fun x => toR (at_ (centerQuadrants m) y x))) =
  rsum (rows m) (fun y => rsum (cols m) (fun x => toR (at_ m y x))).
Proof.
  unfold centerQuadrants. cbn [at_].
  pose proof (half_twice_le (rows m)) as HM. pose proof (half_twice_le (cols m)) as HN.
  set (cy := (rows m / 2)%nat) in *. set (cx := (cols m / 2)%nat) in *.
  assert (EM : rows m = (cy + cy + (rows m - 2 * cy))%nat) by lia.
  assert (EN : cols m = (cx + cx + (cols m - 2 * cx))%nat) by lia.
  set (rM := (rows m - 2 * cy)%nat) in *. set (rN := (cols m - 2 * cx)%nat) in *.
  replace (2 * cy)%nat with (cy + cy)%nat by lia.
  replace (2 * cx)%nat with (cx + cx)%nat by lia.
  rewrite EM, EN.
  rewrite <- (rsum_quadrants cy cx rM rN (fun y x => toR (at_ m y x))).
  apply rsum_ext. intros y _. apply rsum_ext. intros x _.
  destruct ((y <? cy + cy) && (x <? cx + cx))%nat; reflexivity.
Qed.

(** X5: The exchange of lines 118-131 keeps the sum of a grid of finite
    samples: the centred kernel has the sum of the kernel. *)
Theorem swapQuadrants_keeps_sum (m : Mat fval) :
  all_finite m -> sum (swapQuadrants m) = sum m.
Proof.
  intros Hfin.
  rewrite (sum_Fin m (fun y x => toR (at_ m y x)))
    by (intros; apply finite_toR, Hfin; assumption).
  rewrite (sum_Fin (swapQuadrants m) (fun y x => toR (at_ (swapQuadrants m) y x))).
  - rewrite swapQuadrants_rows, swapQuadrants_cols. f_equal.
    rewrite <- rsum_centerQuadrants.
    apply rsum_ext. intros y _. apply rsum_ext. intros x _.
    rewrite swapQuadrants_at. reflexivity.
  - intros y x Hy Hx. apply finite_toR.
    apply (swapQuadrants_inside fval (fun c => is_finite c = true) m Hfin); assumption.
Qed.

Lemma swapQuadrants_keeps_sum_witness : sum (swapQuadrants image4x4) = sum image4x4.
Proof.
  apply (swapQuadrants_keeps_sum image4x4). intros y x _ _. reflexivity.
Defined.

(** ** The transfer function at the origin *)

Lemma fst_Csum (n : nat) (f : nat -> Cx) : fst (Csum n f) = rsum n (fun i => fst (f i)).
Proof.
  induction n as [|n IH]; simpl; [reflexivity|]. rewrite IH. reflexivity.
Qed.

Lemma snd_Csum (n : nat) (f : nat -> Cx) : snd (Csum n f) = rsum n (fun i => snd (f i)).
Proof.
  induction n as [|n IH]; simpl; [reflexivity|]. rewrite IH. reflexivity.
Qed.

(** The real plane of line 136 holds the sum of the kernel, one, in its
    first cell. *)
Lemma realPlane_origin
    (raster : nat -> nat -> Point -> Z -> Z -> Z -> nat -> nat -> bool)
    (g : Globals) (bbox : Size) :
  paints_center raster -> (0 <= radius_slider g)%Z ->
  (0 < width bbox)%nat -> (0 < height bbox)%nat ->
  realPlane raster g bbox 0 0 = 1.
Proof.
  intros Hc Hr Hw Hh.
  assert (Hpos : 0 < total raster g bbox) by (apply total_pos; assumption).
  assert (Hfin : all_finite (kernel raster g bbox)) by (apply kernel_finite; assumption).
  unfold realPlane. rewrite rdft_origin, fst_Csum.
  rewrite (rsum_ext _ _ (fun y => rsum (width bbox) (fun x =>
             toR (at_ (centerQuadrants (kernel raster g bbox)) y x)))).
  2:{ intros y _. rewrite fst_Csum. apply rsum_ext. intros x _.
      unfold cellsOf. cbn [fst]. rewrite swapQuadrants_at. reflexivity. }
  pose proof (rsum_centerQuadrants (kernel raster g bbox)) as E.
  cbn [rows cols kernel] in E. cbn [kernel] . rewrite E.
  pose proof (psf_sum_one raster g bbox Hpos) as Hone.
  rewrite (sum_Fin _ (fun y x => toR (at_ (kernel raster g bbox) y x))) in Hone
    by (intros; apply finite_toR, Hfin; assumption).
  injection Hone as Hone. exact Hone.
Qed.

(** X6: With a positive noise slider the first cell of the transfer
    function is [snr / (snr + 1)], for every accepted radius and every
    size that has a cell: the gain at frequency zero does not depend on
    the blur. *)
Theorem transfer_at_origin
    (raster : nat -> nat -> Point -> Z -> Z -> Z -> nat -> nat -> bool)
    (g : Globals) (bbox : Size) (imgOut m : Mat fval) :
  paints_center raster ->
  (0 <= radius_slider g)%Z -> (0 < snr_slider g)%Z ->
  (0 < width bbox)%nat -> (0 < height bbox)%nat ->
  getWienerFilter raster g bbox imgOut = Ok m ->
  at_ m 0 0 = Fin (IZR (snr_slider g) / (IZR (snr_slider g) + 1)).
Proof.
  intros Hc Hr Hs Hw Hh Hm.
  rewrite getWienerFilter_value in Hm by exact Hr. injection Hm as <-.
  rewrite transferOf_cell, realPlane_origin, wienerCell_fin by assumption.
  assert (0 < IZR (snr_slider g)) by (apply IZR_lt; exact Hs).
  rewrite Rabs_R1. f_equal. field. lra.
Qed.

Lemma transfer_at_origin_witness :
  at_ (transferOf default_sliders (kernel disk_raster default_sliders (mkSize 4 4))) 0 0
  = Fin (IZR (snr_slider default_sliders) / (IZR (snr_slider default_sliders) + 1)).
Proof.
  apply (transfer_at_origin disk_raster default_sliders (mkSize 4 4) no_image _
           disk_raster_center);
    [ discriminate | reflexivity | simpl; lia | simpl; lia
    | apply getWienerFilter_value; discriminate ].
Defined.

(** ** The transfer function against the spectrum of the kernel *)

Lemma wiener_denominator_pos (snr : Z) (h : R) :
  (0 < snr)%Z -> 0 < Rabs h * Rabs h + 1 / IZR snr.
Proof.
  intros Hs. assert (HS : 0 < IZR snr) by (apply IZR_lt; exact Hs).
  assert (0 < 1 / IZR snr) by (apply Rdiv_lt_0_compat; lra).
  pose proof (Rabs_pos h). nra.
Qed.

Lemma Rabs_square (h : R) : Rabs h * Rabs h = h * h.
Proof.
  unfold Rabs. destruct (Rcase_abs h); ring.
Qed.

Lemma wiener_product (snr : Z) (h : R) :
  (0 < snr)%Z ->
  0 <= h / (Rabs h * Rabs h + 1 / IZR snr) * h < 1 /\
  (h / (Rabs h * Rabs h + 1 / IZR snr) = 0 <-> h = 0).
Proof.
  intros Hs. pose proof (wiener_denominator_pos snr h Hs) as HD.
  assert (HS : 0 < IZR snr) by (apply IZR_lt; exact Hs).
  assert (Hn : 0 < 1 / IZR snr) by (apply Rdiv_lt_0_compat; lra).
  rewrite Rabs_square in *.
  set (D := h * h + 1 / IZR snr) in *.
  assert (E : h / D * h = h * h / D) by (field; lra).
  assert (Hi : 0 < / D) by (apply Rinv_0_lt_compat; exact HD).
  split; [split|].
  - rewrite E. apply Rmult_le_pos; [nra | lra].
  - rewrite E. apply Rmult_lt_reg_r with D; [exact HD|].
    replace (h * h / D * D) with (h * h) by (field; lra). unfold D. lra.
  - split.
    + intros Hz. unfold Rdiv in Hz. apply Rmult_integral in Hz.
      destruct Hz as [Hz | Hz]; [exact Hz | lra].
    + intros ->. unfold Rdiv. ring.
Qed.

(** X7: With the noise slider at a positive value of its trackbar, at
    most [snr_slider_max], every cell of the transfer function times the
    cell of the real plane of the kernel's spectrum it was computed from
    lies in [0, 1): the filter has the sign of that plane, vanishes
    exactly where it vanishes and never inverts it fully. *)
Theorem wiener_gain_below_one
    (raster : nat -> nat -> Point -> Z -> Z -> Z -> nat -> nat -> bool)
    (g : Globals) (bbox : Size) (imgOut m : Mat fval) :
  paints_center raster ->
  (0 < snr_slider g)%Z -> (snr_slider g <= snr_slider_max)%Z ->
  getWienerFilter raster g bbox imgOut = Ok m ->
  forall y x, (y < rows m)%nat -> (x < cols m)%nat ->
    exists h w,
      fst (at_ (psfSpectrum (kernel raster g bbox)) y x) = Fin h /\
      at_ m y x = Fin w /\
      0 <= w * h < 1 /\ (w = 0 <-> h = 0).
Proof.
  intros Hc Hs _ Hm y x Hy Hx.
  destruct (Z.lt_ge_cases (radius_slider g) 0) as [Hneg | Hr].
  { rewrite getWienerFilter_raise in Hm by assumption. discriminate. }
  rewrite getWienerFilter_value in Hm by assumption. injection Hm as <-.
  rewrite transferOf_rows in Hy. rewrite transferOf_cols in Hx.
  exists (realPlane raster g bbox y x).
  eexists. split; [| split].
  - rewrite psfSpectrum_cells by (apply kernel_finite; assumption || lia). reflexivity.
  - rewrite transferOf_cell, wienerCell_fin by (assumption || lia). reflexivity.
  - apply wiener_product. exact Hs.
Qed.

Lemma wiener_gain_below_one_witness :
  exists h w,
    fst (at_ (psfSpectrum (kernel disk_raster default_sliders (mkSize 4 4))) 1 2) = Fin h /\
    at_ (transferOf default_sliders (kernel disk_raster default_sliders (mkSize 4 4))) 1 2
      = Fin w /\
    0 <= w * h < 1 /\ (w = 0 <-> h = 0).
Proof.
  apply (wiener_gain_below_one disk_raster default_sliders (mkSize 4 4) no_image _
           disk_raster_center).
  - reflexivity.
  - unfold snr_slider_max. simpl. lia.
  - apply getWienerFilter_value. discriminate.
  - rewrite transferOf_rows. simpl. lia.
  - rewrite transferOf_cols. simpl. lia.
Defined.

Lemma wiener_monotone (s1 s2 : Z) (h : R) :
  (0 < s1)%Z -> (s1 <= s2)%Z ->
  Rabs (h / (Rabs h * Rabs h + 1 / IZR s1)) <= Rabs (h / (Rabs h * Rabs h + 1 / IZR s2)).
Proof.
  intros H1 H12.
  assert (H2 : (0 < s2)%Z) by lia.
  pose proof (wiener_denominator_pos s1 h H1) as D1.
  pose proof (wiener_denominator_pos s2 h H2) as D2.
  assert (S1 : 0 < IZR s1) by (apply IZR_lt; exact H1).
  assert (S12 : IZR s1 <= IZR s2) by (apply IZR_le; exact H12).
  assert (Hinv : 1 / IZR s2 <= 1 / IZR s1).
  { unfold Rdiv. rewrite !Rmult_1_l. apply Rinv_le_contravar; assumption. }
  unfold Rdiv at 1 3. rewrite !Rabs_mult, !Rabs_inv.
  rewrite (Rabs_pos_eq (Rabs h * Rabs h + 1 / IZR s1)) by lra.
  rewrite (Rabs_pos_eq (Rabs h * Rabs h + 1 / IZR s2)) by lra.
  apply Rmult_le_compat_l; [apply Rabs_pos|].
  apply Rinv_le_contravar; lra.
Qed.

(** X8: Raising the noise slider, with the radius slider and the size
    unchanged, never lowers the magnitude of a cell of the transfer
    function. *)
Theorem wiener_monotone_in_snr
    (raster : nat -> nat -> Point -> Z -> Z -> Z -> nat -> nat -> bool)
    (radius snr1 snr2 : Z) (bbox : Size) (out1 out2 m1 m2 : Mat fval) :
  paints_center raster ->
  (0 < snr1)%Z -> (snr1 <= snr2)%Z ->
  getWienerFilter raster (mkGlobals radius snr1) bbox out1 = Ok m1 ->
  getWienerFilter raster (mkGlobals radius snr2) bbox out2 = Ok m2 ->
  forall y x, (y < height bbox)%nat -> (x < width bbox)%nat ->
    exists w1 w2, at_ m1 y x = Fin w1 /\ at_ m2 y x = Fin w2 /\ Rabs w1 <= Rabs w2.
Proof.
  intros Hc H1 H12 Hm1 Hm2 y x Hy Hx.
  destruct (Z.lt_ge_cases radius 0) as [Hneg | Hr].
  { rewrite getWienerFilter_raise in Hm1 by exact Hneg. discriminate. }
  rewrite getWienerFilter_value in Hm1 by exact Hr. injection Hm1 as <-.
  rewrite getWienerFilter_value in Hm2 by exact Hr. injection Hm2 as <-.
  rewrite !transferOf_cell by (assumption || lia).
  cbn [snr_slider].
  rewrite !wienerCell_fin by lia.
  change (realPlane raster (mkGlobals radius snr2) bbox y x)
    with (realPlane raster (mkGlobals radius snr1) bbox y x).
  eexists. eexists. split; [reflexivity | split; [reflexivity|]].
  apply wiener_monotone; assumption.
Qed.

Lemma wiener_monotone_in_snr_witness :
  exists w1 w2,
    at_ (transferOf half_sliders (kernel disk_raster half_sliders (mkSize 4 4))) 1 2 = Fin w1 /\
    at_ (transferOf default_sliders (kernel disk_raster default_sliders (mkSize 4 4))) 1 2
      = Fin w2 /\
    Rabs w1 <= Rabs w2.
Proof.
  apply (wiener_monotone_in_snr disk_raster 64 600 1200 (mkSize 4 4) no_image no_image
           _ _ disk_raster_center);
    [ reflexivity | discriminate
    | apply (getWienerFilter_value disk_raster half_sliders); discriminate
    | apply (getWienerFilter_value disk_raster default_sliders); discriminate
    | simpl; lia | simpl; lia ].
Defined.

(** ** [filter] on finite images *)

Lemma rdft_ext (sgn : R) (M N : nat) (X Y : nat -> nat -> Cx) (u v : nat) :
  (forall y x, (y < M)%nat -> (x < N)%nat -> X y x = Y y x) ->
  rdft sgn M N X u v = rdft sgn M N Y u v.
Proof.
  intros H. unfold rdft. apply Csum_ext. intros y Hy. apply Csum_ext. intros x Hx.
  rewrite H by assumption. reflexivity.
Qed.

Lemma rdft_linear (sgn : R) (M N : nat) (X Y : nat -> nat -> Cx) (a : R) (u v : nat) :
  rdft sgn M N (fun y x => Cadd (Cscal a (X y x)) (Y y x)) u v =
  Cadd (Cscal a (rdft sgn M N X u v)) (rdft sgn M N Y u v).
Proof.
  unfold rdft. rewrite <- Csum_scal, <- Csum_add. apply Csum_ext. intros y _.
  rewrite <- Csum_scal, <- Csum_add. apply Csum_ext. intros x _. cx_ring.
Qed.

Lemma rdft_mul_const (sgn : R) (M N : nat) (X : nat -> nat -> Cx) (c : Cx) (u v : nat) :
  rdft sgn M N (fun y x => Cmul (X y x) c) u v = Cmul (rdft sgn M N X u v) c.
Proof.
  unfold rdft. rewrite <- Csum_mul_r. apply Csum_ext. intros y _.
  rewrite <- Csum_mul_r. apply Csum_ext. intros x _. cx_ring.
Qed.

(** What [filter] returns for a finite image and a finite transfer
    function of the same size. *)
Lemma filter_cells (img out H : Mat fval) :
  all_finite img -> all_finite H -> rows H = rows img -> cols H = cols img ->
  exists o,
    filter img out H = Ok o /\ rows o = rows img /\ cols o = cols img /\
    forall y x, at_ o y x = Fin (filterCell img H y x).
Proof.
  intros Himg HH Hr Hc. rewrite filter_points. unfold mulSpectrums.
  destruct (mulSpectrums_filter_rows img H) as (Er1 & Ec1 & Er2 & Ec2).
  rewrite Er1, Ec1, Er2, Ec2, Hr, Hc, !Nat.eqb_refl. cbn [andb bind].
  eexists. split; [reflexivity|].
  cbn [split fst mat_map rows cols at_]. unfold idft at 1 2.
  rewrite dft_rows, dft_cols. cbn [mat_zip rows cols]. rewrite Er1, Ec1.
  split; [reflexivity | split; [reflexivity |]].
  intros y x.
  rewrite (idft_inverse _
    (fun u v => Cmul (Cscal (1 / INR (rows img * cols img))
                        (rdft (-1) (rows img) (cols img) (cellsOf img) u v))
                     (cellsOf H u v))).
  - cbn [mat_zip rows cols]. rewrite Er1, Ec1. reflexivity.
  - intros u v Hu Hv. cbn [mat_zip rows cols] in Hu, Hv.
    rewrite Er1 in Hu. rewrite Ec1 in Hv.
    cbn [mat_zip at_].
    rewrite imageSpectrum_cells by assumption.
    rewrite (merge_cells H HH) by (rewrite ?Hr, ?Hc; assumption).
    apply cmul_fin.
Qed.

(** The inverse sum of a spectrum multiplied by one number. *)
Lemma filterCell_constant (img H : Mat fval) (c : R) (y x : nat) :
  rows H = rows img -> cols H = cols img ->
  (forall y' x', (y' < rows H)%nat -> (x' < cols H)%nat -> at_ H y' x' = Fin c) ->
  (y < rows img)%nat -> (x < cols img)%nat ->
  filterCell img H y x = c * toR (at_ img y x).
Proof.
  intros Hr Hc Hcell Hy Hx. unfold filterCell.
  rewrite (rdft_ext 1 _ _ _
    (fun u v => Cmul (Cscal (1 / INR (rows img * cols img))
                        (rdft (-1) (rows img) (cols img) (cellsOf img) u v)) (c, 0))).
  - rewrite rdft_mul_const, rdft_inverse by assumption.
    unfold cellsOf, Cmul. cbn [fst snd]. ring.
  - intros u v Hu Hv. unfold cellsOf at 2.
    rewrite Hcell by (rewrite ?Hr, ?Hc; assumption). reflexivity.
Qed.

Lemma constant_finite (H : Mat fval) (c : R) :
  (forall y x, (y < rows H)%nat -> (x < cols H)%nat -> at_ H y x = Fin c) -> all_finite H.
Proof. intros Hcell y x Hy Hx. rewrite Hcell by assumption. reflexivity. Qed.

Lemma filter_scales (img out H : Mat fval) (c : R) :
  all_finite img -> rows H = rows img -> cols H = cols img ->
  (forall y x, (y < rows H)%nat -> (x < cols H)%nat -> at_ H y x = Fin c) ->
  exists o,
    filter img out H = Ok o /\ rows o = rows img /\ cols o = cols img /\
    forall y x, (y < rows img)%nat -> (x < cols img)%nat ->
      at_ o y x = Fin (c * toR (at_ img y x)).
Proof.
  intros Himg Hr Hc Hcell.
  destruct (filter_cells img out H Himg (constant_finite H c Hcell) Hr Hc)
    as (o & Ho & Hro & Hco & Hat).
  exists o. split; [exact Ho | split; [exact Hro | split; [exact Hco |]]].
  intros y x Hy Hx. rewrite Hat, (filterCell_constant img H c) by assumption.
  reflexivity.
Qed.

(** X9: [filter] with a transfer function that is the same finite number in
    every cell multiplies every sample of a finite image by it. *)
Theorem filter_constant (img out H : Mat fval) (c : R) :
  all_finite img -> rows H = rows img -> cols H = cols img ->
  (forall y x, (y < rows H)%nat -> (x < cols H)%nat -> at_ H y x = Fin c) ->
  exists o,
    filter img out H = Ok o /\ rows o = rows img /\ cols o = cols img /\
    forall y x, (y < rows img)%nat -> (x < cols img)%nat ->
      exists a, at_ img y x = Fin a /\ at_ o y x = Fin (c * a).
Proof.
  intros Himg Hr Hc Hcell.
  destruct (filter_cells img out H Himg (constant_finite H c Hcell) Hr Hc)
    as (o & Ho & Hro & Hco & Hat).
  exists o. split; [exact Ho | split; [exact Hro | split; [exact Hco |]]].
  intros y x Hy Hx. exists (toR (at_ img y x)).
  split; [apply finite_toR, Himg; assumption |].
  rewrite Hat. f_equal. apply filterCell_constant; assumption.
Qed.

Lemma filter_constant_witness :
  exists o,
    filter image4x4 no_image (mat_fill (size_of image4x4) (Fin 3)) = Ok o /\
    rows o = rows image4x4 /\ cols o = cols image4x4 /\
    forall y x, (y < rows image4x4)%nat -> (x < cols image4x4)%nat ->
      exists a, at_ image4x4 y x = Fin a /\ at_ o y x = Fin (3 * a).
Proof.
  apply (filter_constant image4x4 no_image (mat_fill (size_of image4x4) (Fin 3)) 3).
  - intros y x _ _. reflexivity.
  - reflexivity.
  - reflexivity.
  - intros y x _ _. reflexivity.
Defined.

(** X10: [filter] is linear in the image: the result for [a * img1 + img2]
    is [a] times the result for [img1] plus the result for [img2], for
    finite images and a finite transfer function of one size. *)
Theorem filter_linear (img1 img2 out H : Mat fval) (a : R) :
  all_finite img1 -> all_finite img2 -> all_finite H ->
  rows img2 = rows img1 -> cols img2 = cols img1 ->
  rows H = rows img1 -> cols H = cols img1 ->
  exists o1 o2 o,
    filter img1 out H = Ok o1 /\ filter img2 out H = Ok o2 /\
    filter (mat_axpy a img1 img2) out H = Ok o /\
    forall y x, (y < rows img1)%nat -> (x < cols img1)%nat ->
      exists b1 b2,
        at_ o1 y x = Fin b1 /\ at_ o2 y x = Fin b2 /\ at_ o y x = Fin (a * b1 + b2).
Proof.
  intros H1 H2 HH Hr2 Hc2 Hr Hc.
  assert (H12 : all_finite (mat_axpy a img1 img2)).
  { intros y x Hy Hx. cbn [mat_axpy mat_zip rows cols at_] in *.
    rewrite (finite_toR _ (H1 y x Hy Hx)).
    rewrite (finite_toR (at_ img2 y x)) by (apply H2; rewrite ?Hr2, ?Hc2; assumption).
    reflexivity. }
  destruct (filter_cells img1 out H H1 HH Hr Hc) as (o1 & Ho1 & _ & _ & Hat1).
  destruct (filter_cells img2 out H H2 HH) as (o2 & Ho2 & _ & _ & Hat2);
    [congruence | congruence |].
  destruct (filter_cells (mat_axpy a img1 img2) out H H12 HH Hr Hc)
    as (o & Ho & _ & _ & Hat).
  exists o1, o2, o. split; [exact Ho1 | split; [exact Ho2 | split; [exact Ho |]]].
  intros y x _ _. exists (filterCell img1 H y x), (filterCell img2 H y x).
  split; [apply Hat1 | split; [apply Hat2 |]].
  rewrite Hat. f_equal. unfold filterCell.
  cbn [mat_axpy mat_zip rows cols]. rewrite Hr2, Hc2.
  set (M := rows img1). set (N := cols img1). set (k := 1 / INR (M * N)).
  rewrite (rdft_ext 1 M N _
    (fun u v =>
       Cadd (Cscal a (Cmul (Cscal k (rdft (-1) M N (cellsOf img1) u v)) (cellsOf H u v)))
            (Cmul (Cscal k (rdft (-1) M N (cellsOf img2) u v)) (cellsOf H u v)))).
  - rewrite rdft_linear. unfold Cadd, Cscal. cbn [fst]. reflexivity.
  - intros u v _ _.
    rewrite (rdft_ext (-1) M N _
      (fun y' x' => Cadd (Cscal a (cellsOf img1 y' x')) (cellsOf img2 y' x'))).
    + rewrite rdft_linear.
      destruct (rdft (-1) M N (cellsOf img1) u v), (rdft (-1) M N (cellsOf img2) u v),
        (cellsOf H u v).
      unfold Cadd, Cmul, Cscal. cbn [fst snd]. f_equal; ring.
    + intros y' x' Hy' Hx'. unfold cellsOf, mat_axpy. cbn [mat_zip at_].
      rewrite (finite_toR _ (H1 y' x' Hy' Hx')).
      rewrite (finite_toR (at_ img2 y' x'))
        by (apply H2; rewrite ?Hr2, ?Hc2; assumption).
      unfold Cadd, Cscal. cbn [fmul fadd toR fst snd]. f_equal; ring.
Qed.

Lemma filter_linear_witness :
  exists o1 o2 o,
    filter image4x4 no_image image4x4 = Ok o1 /\
    filter image4x4 no_image image4x4 = Ok o2 /\
    filter (mat_axpy 2 image4x4 image4x4) no_image image4x4 = Ok o /\
    forall y x, (y < rows image4x4)%nat -> (x < cols image4x4)%nat ->
      exists b1 b2,
        at_ o1 y x = Fin b1 /\ at_ o2 y x = Fin b2 /\ at_ o y x = Fin (2 * b1 + b2).
Proof.
  apply (filter_linear image4x4 image4x4 no_image image4x4 2);
    try reflexivity; intros y x _ _; reflexivity.
Defined.

(** ** The callbacks end to end *)

Lemma callbacks_through_filter
    (raster : nat -> nat -> Point -> Z -> Z -> Z -> nat -> nat -> bool)
    (g : Globals) (pos : Z) (image : Mat fval) :
  (0 <= radius_slider g)%Z ->
  on_radius_trackbar raster g pos image =
    filter (whole image) no_image
      (transferOf g (kernel raster g (mkSize (cols image) (rows image)))) /\
  on_snr_trackbar raster g pos image =
    filter (whole image) no_image
      (transferOf g (kernel raster g (mkSize (cols image) (rows image)))).
Proof.
  intros Hr. unfold on_radius_trackbar, on_snr_trackbar. cbv zeta.
  cbn [rect_w rect_h]. rewrite getWienerFilter_value by exact Hr. split; reflexivity.
Qed.

Lemma whole_finite (image : Mat fval) : all_finite image -> all_finite (whole image).
Proof. intros H y x Hy Hx. exact (H y x Hy Hx). Qed.

(** X11: With the noise slider at zero the callbacks return a black image:
    every sample of the result is zero, for every finite image and
    every accepted radius. *)
Theorem snr_zero_blanks_image
    (raster : nat -> nat -> Point -> Z -> Z -> Z -> nat -> nat -> bool)
    (g : Globals) (pos : Z) (image : Mat fval) :
  paints_center raster ->
  (0 <= radius_slider g)%Z -> snr_slider g = 0%Z ->
  all_finite image ->
  exists o,
    on_radius_trackbar raster g pos image = Ok o /\
    on_snr_trackbar raster g pos image = Ok o /\
    rows o = rows image /\ cols o = cols image /\
    forall y x, (y < rows image)%nat -> (x < cols image)%nat -> at_ o y x = Fin 0.
Proof.
  intros Hc Hr Hs Hfin.
  destruct (callbacks_through_filter raster g pos image Hr) as [-> ->].
  destruct (filter_scales (whole image) no_image
              (transferOf g (kernel raster g (mkSize (cols image) (rows image)))) 0
              (whole_finite image Hfin))
    as (o & Ho & Hro & Hco & Hat).
  - apply transferOf_rows.
  - apply transferOf_cols.
  - intros y x Hy Hx. rewrite transferOf_rows in Hy. rewrite transferOf_cols in Hx.
    cbn [height width] in Hy, Hx.
    rewrite transferOf_cell, Hs by (try assumption; cbn [height width]; lia).
    apply wienerCell_snr0.
  - exists o. split; [exact Ho | split; [exact Ho | split; [exact Hro | split; [exact Hco |]]]].
    intros y x Hy Hx. rewrite (Hat y x Hy Hx). f_equal. ring.
Qed.

Lemma snr_zero_blanks_image_witness :
  exists o,
    on_radius_trackbar disk_raster muted_sliders 64 image4x4 = Ok o /\
    on_snr_trackbar disk_raster muted_sliders 64 image4x4 = Ok o /\
    rows o = rows image4x4 /\ cols o = cols image4x4 /\
    forall y x, (y < rows image4x4)%nat -> (x < cols image4x4)%nat -> at_ o y x = Fin 0.
Proof.
  apply (snr_zero_blanks_image disk_raster muted_sliders 64 image4x4 disk_raster_center).
  - discriminate.
  - reflexivity.
  - intros y x _ _. reflexivity.
Defined.

(** *** A flat image *)

Lemma Csum_all_zero (n : nat) (f : nat -> Cx) :
  (forall i, (i < n)%nat -> f i = (0, 0)) -> Csum n f = (0, 0).
Proof.
  intros H. rewrite (Csum_ext n f (fun _ => (0, 0))) by exact H. apply Csum_zero.
Qed.

(** The forward sum of a flat grid has one cell that is not zero. *)
Lemma rdft_flat (M N : nat) (a : R) (u v : nat) :
  (u < M)%nat -> (v < N)%nat ->
  rdft (-1) M N (fun _ _ => (a, 0)) u v =
  if Nat.eq_dec 0 u
  then (if Nat.eq_dec 0 v then (INR M * INR N * a, 0) else (0, 0))
  else (0, 0).
Proof.
  intros Hu Hv.
  assert (HM : 0 < INR M) by (apply lt_0_INR; lia).
  assert (HN : 0 < INR N) by (apply lt_0_INR; lia).
  unfold rdft.
  rewrite (Csum_ext M _ (fun y => Csum N (fun x =>
    Cmul (a, 0)
      (Cmul (cisR (INR y * (2 * PI * (INR 0 - INR u) / INR M)))
            (cisR (INR x * (2 * PI * (INR 0 - INR v) / INR N))))))).
  2:{ intros y _. apply Csum_ext. intros x _. rewrite <- cisR_add. f_equal. f_equal.
      unfold angle. cbn [INR]. field. lra. }
  rewrite Csum2_product.
  rewrite (kernel_orthogonal M 0 u), (kernel_orthogonal N 0 v) by lia.
  destruct (Nat.eq_dec 0 u), (Nat.eq_dec 0 v); unfold Cmul; cbn [fst snd]; f_equal; ring.
Qed.

Lemma filterCell_flat (img H : Mat fval) (a : R) (y x : nat) :
  (0 < rows img)%nat -> (0 < cols img)%nat ->
  (forall y' x', (y' < rows img)%nat -> (x' < cols img)%nat -> at_ img y' x' = Fin a) ->
  filterCell img H y x = a * toR (at_ H 0 0).
Proof.
  intros HM HN Hflat. unfold filterCell.
  set (M := rows img) in *. set (N := cols img) in *.
  assert (HMr : 0 < INR M) by (apply lt_0_INR; lia).
  assert (HNr : 0 < INR N) by (apply lt_0_INR; lia).
  rewrite (rdft_ext 1 M N _
    (fun u v => Cmul (Cscal (1 / INR (M * N))
                        (if Nat.eq_dec 0 u
                         then (if Nat.eq_dec 0 v then (INR M * INR N * a, 0) else (0, 0))
                         else (0, 0)))
                     (cellsOf H u v))).
  2:{ intros u v Hu Hv. f_equal. f_equal. rewrite <- rdft_flat by assumption.
      apply rdft_ext. intros y' x' Hy' Hx'. unfold cellsOf.
      rewrite Hflat by assumption. reflexivity. }
  unfold rdft. rewrite (Csum_single M 0); [| lia |].
  - rewrite (Csum_single N 0); [| lia |].
    + destruct (Nat.eq_dec 0 0) as [_ | Hne]; [| contradiction].
      replace (1 * angle M N y x 0 0) with 0 by (unfold angle; cbn [INR]; field; lra).
      rewrite cisR_0, mult_INR. unfold cellsOf, Cmul, Cscal. cbn [fst snd].
      field. lra.
    + intros v Hv Hne. destruct (Nat.eq_dec 0 0) as [_ | E]; [| contradiction].
      destruct (Nat.eq_dec 0 v) as [E | _]; [congruence |]. cx_ring.
  - intros u Hu Hne. apply Csum_all_zero. intros v Hv.
    destruct (Nat.eq_dec 0 u) as [E | _]; [congruence |]. cx_ring.
Qed.

Lemma transferOf_finite
    (raster : nat -> nat -> Point -> Z -> Z -> Z -> nat -> nat -> bool)
    (g : Globals) (bbox : Size) :
  paints_center raster -> (0 <= radius_slider g)%Z -> (0 < snr_slider g)%Z ->
  all_finite (transferOf g (kernel raster g bbox)).
Proof.
  intros Hc Hr Hs y x Hy Hx.
  rewrite transferOf_rows in Hy. rewrite transferOf_cols in Hx.
  rewrite transferOf_cell, wienerCell_fin by (assumption || lia). reflexivity.
Qed.

(** X12: A flat image stays flat: with a positive noise slider and an
    accepted radius the callbacks return the image whose every sample is
    the flat value times [snr / (snr + 1)], whatever the radius. *)
Theorem flat_image_gain
    (raster : nat -> nat -> Point -> Z -> Z -> Z -> nat -> nat -> bool)
    (g : Globals) (pos : Z) (image : Mat fval) (a : R) :
  paints_center raster ->
  (0 <= radius_slider g)%Z -> (0 < snr_slider g)%Z ->
  (0 < rows image)%nat -> (0 < cols image)%nat ->
  (forall y x, (y < rows image)%nat -> (x < cols image)%nat -> at_ image y x = Fin a) ->
  exists o,
    on_radius_trackbar raster g pos image = Ok o /\
    on_snr_trackbar raster g pos image = Ok o /\
    rows o = rows image /\ cols o = cols image /\
    forall y x, (y < rows image)%nat -> (x < cols image)%nat ->
      at_ o y x = Fin (a * (IZR (snr_slider g) / (IZR (snr_slider g) + 1))).
Proof.
  intros Hc Hr Hs HM HN Hflat.
  destruct (callbacks_through_filter raster g pos image Hr) as [-> ->].
  set (bbox := mkSize (cols image) (rows image)).
  assert (Hfin : all_finite (whole image)).
  { intros y x Hy Hx. cbn [whole roi rows cols at_ rect_w rect_h rect_x rect_y] in *.
    rewrite Hflat by assumption. reflexivity. }
  destruct (filter_cells (whole image) no_image (transferOf g (kernel raster g bbox)) Hfin
              (transferOf_finite raster g bbox Hc Hr Hs))
    as (o & Ho & Hro & Hco & Hat).
  - apply transferOf_rows.
  - apply transferOf_cols.
  - exists o. split; [exact Ho | split; [exact Ho | split; [exact Hro | split; [exact Hco |]]]].
    intros y x _ _. rewrite Hat.
    rewrite (filterCell_flat (whole image) _ a) by (exact HM || exact HN || exact Hflat).
    rewrite transferOf_cell, realPlane_origin, wienerCell_fin by assumption.
    assert (0 < IZR (snr_slider g)) by (apply IZR_lt; exact Hs).
    cbn [toR]. rewrite Rabs_R1. f_equal. field. lra.
Qed.

Lemma flat_image_gain_witness :
  exists o,
    on_radius_trackbar disk_raster default_sliders 64 (mkMat 4 4 (fun _ _ => Fin 200)) = Ok o /\
    on_snr_trackbar disk_raster default_sliders 64 (mkMat 4 4 (fun _ _ => Fin 200)) = Ok o /\
    rows o = 4%nat /\ cols o = 4%nat /\
    forall y x, (y < 4)%nat -> (x < 4)%nat ->
      at_ o y x = Fin (200 * (IZR (snr_slider default_sliders)
                              / (IZR (snr_slider default_sliders) + 1))).
Proof.
  apply (flat_image_gain disk_raster default_sliders 64 (mkMat 4 4 (fun _ _ => Fin 200)) 200
           disk_raster_center).
  - discriminate.
  - reflexivity.
  - simpl. lia.
  - simpl. lia.
  - intros y x _ _. reflexivity.
Defined.

(** *** The radius slider at zero *)

Lemma disk_raster_only_center : paints_only_center disk_raster.
Proof.
  intros r c p y x H. unfold disk_raster in H. cbv zeta in H.
  apply Z.leb_le in H.
  set (dy := (Z.of_nat y - Z.of_nat (pt_y p))%Z) in *.
  set (dx := (Z.of_nat x - Z.of_nat (pt_x p))%Z) in *.
  pose proof (Z.square_nonneg dx) as Sx. pose proof (Z.square_nonneg dy) as Sy.
  assert (Hy : (dy * dy = 0)%Z) by lia.
  assert (Hx : (dx * dx = 0)%Z) by lia.
  apply Z.eq_square_0 in Hy, Hx. unfold dx, dy in *. split; lia.
Qed.

Lemma rsum_zero (n : nat) : rsum n (fun _ => 0) = 0.
Proof. induction n as [|n IH]; simpl; [reflexivity | rewrite IH; ring]. Qed.

Lemma rsum_single (n k : nat) (f : nat -> R) :
  (k < n)%nat -> (forall i, (i < n)%nat -> i <> k -> f i = 0) -> rsum n f = f k.
Proof.
  induction n as [|n IH]; intros Hk H; [lia|]. simpl.
  destruct (Nat.eq_dec k n) as [-> | Hne].
  - rewrite (rsum_ext n f (fun _ => 0)) by (intros i Hi; apply H; lia).
    rewrite rsum_zero. ring.
  - rewrite IH by (try lia; intros; apply H; lia).
    rewrite (H n) by lia. ring.
Qed.

Section RadiusZero.

Variable raster : nat -> nat -> Point -> Z -> Z -> Z -> nat -> nat -> bool.
Variable g : Globals.
Variable bbox : Size.
Hypothesis centre_painted : paints_center raster.
Hypothesis nothing_else : paints_only_center raster.
Hypothesis radius_zero : radius_slider g = 0%Z.
Hypothesis two_columns : (2 <= width bbox)%nat.
Hypothesis two_rows : (2 <= height bbox)%nat.

Lemma painted_radius0 (y x : nat) :
  painted raster g bbox y x = ((y =? height bbox / 2) && (x =? width bbox / 2))%nat.
Proof.
  unfold painted. rewrite radius_zero.
  destruct (Nat.eqb_spec y (height bbox / 2)) as [-> | Hy];
    [destruct (Nat.eqb_spec x (width bbox / 2)) as [-> | Hx] |]; cbn [andb].
  - apply (centre_painted (height bbox) (width bbox)
             (mkPoint (width bbox / 2) (height bbox / 2)));
      [lia | cbn [pt_y]; apply Nat.div_lt; lia | cbn [pt_x]; apply Nat.div_lt; lia].
  - destruct (raster _ _ _ _ _ _ _ x) eqn:E; [| reflexivity].
    apply nothing_else in E. cbn [pt_x pt_y] in E. destruct E. contradiction.
  - destruct (raster _ _ _ _ _ _ y x) eqn:E; [| reflexivity].
    apply nothing_else in E. cbn [pt_x pt_y] in E. destruct E. contradiction.
Qed.

Lemma total_radius0 : total raster g bbox = 255.
Proof.
  unfold total.
  assert (Hy : (height bbox / 2 < height bbox)%nat) by (apply Nat.div_lt; lia).
  assert (Hx : (width bbox / 2 < width bbox)%nat) by (apply Nat.div_lt; lia).
  rewrite (rsum_single _ (height bbox / 2)); [| exact Hy |].
  - rewrite (rsum_single _ (width bbox / 2)); [| exact Hx |].
    + unfold raw. rewrite painted_radius0, !Nat.eqb_refl. reflexivity.
    + intros x _ Hne. unfold raw. rewrite painted_radius0.
      replace (x =? width bbox / 2)%nat with false by (symmetry; apply Nat.eqb_neq; exact Hne).
      rewrite andb_false_r. reflexivity.
  - intros y _ Hne. rewrite (rsum_ext _ _ (fun _ => 0)).
    + apply rsum_zero.
    + intros x _. unfold raw. rewrite painted_radius0.
      replace (y =? height bbox / 2)%nat with false by (symmetry; apply Nat.eqb_neq; exact Hne).
      reflexivity.
Qed.

(** The kernel is the single centre cell, with weight one. *)
Lemma kernel_radius0 (y x : nat) :
  at_ (kernel raster g bbox) y x =
  Fin (if ((y =? height bbox / 2) && (x =? width bbox / 2))%nat then 1 else 0).
Proof.
  rewrite kernel_cell by (rewrite total_radius0; lra).
  rewrite total_radius0. unfold raw. rewrite painted_radius0.
  destruct ((y =? height bbox / 2) && (x =? width bbox / 2))%nat; f_equal; field.
Qed.

(** The exchange carries it to the first cell. *)
Lemma centred_radius0 (y x : nat) :
  (y < height bbox)%nat -> (x < width bbox)%nat ->
  cellsOf (swapQuadrants (kernel raster g bbox)) y x =
  if ((y =? 0) && (x =? 0))%nat then (1, 0) else (0, 0).
Proof.
  intros Hy Hx. unfold cellsOf. rewrite swapQuadrants_at.
  unfold centerQuadrants.
  change (rows (kernel raster g bbox)) with (height bbox).
  change (cols (kernel raster g bbox)) with (width bbox).
  cbn beta iota delta [at_].
  assert (Hcy : (1 <= height bbox / 2)%nat) by (apply Nat.div_le_lower_bound; lia).
  assert (Hcx : (1 <= width bbox / 2)%nat) by (apply Nat.div_le_lower_bound; lia).
  destruct ((y <? 2 * (height bbox / 2)) && (x <? 2 * (width bbox / 2)))%nat eqn:E.
  - apply andb_prop in E. destruct E as [Ey Ex]. apply Nat.ltb_lt in Ey, Ex.
    rewrite kernel_radius0. cbn [toR].
    revert Hcy Hcx Ey Ex.
    generalize (height bbox / 2)%nat (width bbox / 2)%nat. intros cy cx Hcy Hcx Ey Ex.
    destruct (Nat.ltb_spec y cy), (Nat.ltb_spec x cx);
      repeat match goal with
        | |- context [(?a =? ?b)%nat] => destruct (Nat.eqb_spec a b)
        end; cbn [andb]; try reflexivity; lia.
  - rewrite kernel_radius0. cbn [toR].
    apply andb_false_iff in E.
    revert Hcy Hcx E.
    generalize (height bbox / 2)%nat (width bbox / 2)%nat. intros cy cx Hcy Hcx E.
    rewrite !Nat.ltb_ge in E.
    repeat match goal with
      | |- context [(?a =? ?b)%nat] => destruct (Nat.eqb_spec a b)
      end; cbn [andb]; try reflexivity; lia.
Qed.

(** The real plane of its spectrum is one in every cell. *)
Lemma realPlane_radius0 (u v : nat) : realPlane raster g bbox u v = 1.
Proof.
  unfold realPlane.
  rewrite (rdft_ext (-1) _ _ _
    (fun y x => if ((y =? 0) && (x =? 0))%nat then (1, 0) else (0, 0)))
    by (intros; apply centred_radius0; assumption).
  assert (HM : 0 < INR (height bbox)) by (apply lt_0_INR; lia).
  assert (HN : 0 < INR (width bbox)) by (apply lt_0_INR; lia).
  unfold rdft. rewrite (Csum_single _ 0); [| lia |].
  - rewrite (Csum_single _ 0); [| lia |].
    + cbn [Nat.eqb andb].
      replace (-1 * angle (height bbox) (width bbox) u v 0 0) with 0
        by (unfold angle; cbn [INR]; field; lra).
      rewrite cisR_0. unfold Cmul. cbn [fst snd]. ring.
    + intros x _ Hne. cbn [Nat.eqb andb].
      replace (x =? 0)%nat with false by (symmetry; apply Nat.eqb_neq; exact Hne).
      cx_ring.
  - intros y _ Hne. apply Csum_all_zero. intros x _.
    replace (y =? 0)%nat with false by (symmetry; apply Nat.eqb_neq; exact Hne).
    cbn [andb]. cx_ring.
Qed.

End RadiusZero.

(** X13: With the radius slider at zero, a rasteriser that then paints the
    centre and nothing else, and an image of at least two rows and two
    columns, the callbacks return the image itself scaled by
    [snr / (snr + 1)]: no sample is moved or mixed with another. *)
Theorem radius_zero_keeps_image
    (raster : nat -> nat -> Point -> Z -> Z -> Z -> nat -> nat -> bool)
    (g : Globals) (pos : Z) (image : Mat fval) :
  paints_center raster -> paints_only_center raster ->
  radius_slider g = 0%Z -> (0 < snr_slider g)%Z ->
  (2 <= rows image)%nat -> (2 <= cols image)%nat ->
  all_finite image ->
  exists o,
    on_radius_trackbar raster g pos image = Ok o /\
    on_snr_trackbar raster g pos image = Ok o /\
    rows o = rows image /\ cols o = cols image /\
    forall y x, (y < rows image)%nat -> (x < cols image)%nat ->
      exists a, at_ image y x = Fin a /\
                at_ o y x = Fin (IZR (snr_slider g) / (IZR (snr_slider g) + 1) * a).
Proof.
  intros Hc Ho Hr Hs HM HN Hfin.
  assert (Hr0 : (0 <= radius_slider g)%Z) by lia.
  destruct (callbacks_through_filter raster g pos image Hr0) as [-> ->].
  set (bbox := mkSize (cols image) (rows image)).
  assert (HS : 0 < IZR (snr_slider g)) by (apply IZR_lt; exact Hs).
  destruct (filter_scales (whole image) no_image (transferOf g (kernel raster g bbox))
              (IZR (snr_slider g) / (IZR (snr_slider g) + 1)) (whole_finite image Hfin))
    as (o & Hout & Hro & Hco & Hat).
  - apply transferOf_rows.
  - apply transferOf_cols.
  - intros y x Hy Hx. rewrite transferOf_rows in Hy. rewrite transferOf_cols in Hx.
    cbn [height width bbox] in Hy, Hx.
    rewrite transferOf_cell by (try assumption; cbn [height width bbox]; lia).
    rewrite (realPlane_radius0 raster g bbox Hc Ho Hr) by (cbn [height width bbox]; lia).
    rewrite wienerCell_fin by exact Hs. rewrite Rabs_R1. f_equal. field. lra.
  - exists o. split; [exact Hout | split; [exact Hout | split; [exact Hro | split; [exact Hco |]]]].
    intros y x Hy Hx. exists (toR (at_ image y x)).
    split; [apply finite_toR, Hfin; assumption | exact (Hat y x Hy Hx)].
Qed.

Lemma radius_zero_keeps_image_witness :
  exists o,
    on_radius_trackbar disk_raster unit_sliders 0 image4x4 = Ok o /\
    on_snr_trackbar disk_raster unit_sliders 0 image4x4 = Ok o /\
    rows o = rows image4x4 /\ cols o = cols image4x4 /\
    forall y x, (y < rows image4x4)%nat -> (x < cols image4x4)%nat ->
      exists a, at_ image4x4 y x = Fin a /\
                at_ o y x = Fin (IZR (snr_slider unit_sliders)
                                 / (IZR (snr_slider unit_sliders) + 1) * a).
Proof.
  apply (radius_zero_keeps_image disk_raster unit_sliders 0 image4x4
           disk_raster_center disk_raster_only_center).
  - reflexivity.
  - reflexivity.
  - simpl. lia.
  - simpl. lia.
  - intros y x _ _. reflexivity.
Defined.

(** ** No infinity and no NaN from the trackbar ranges *)

Lemma transferOf_finite_snr0
    (raster : nat -> nat -> Point -> Z -> Z -> Z -> nat -> nat -> bool)
    (g : Globals) (bbox : Size) :
  paints_center raster -> (0 <= radius_slider g)%Z -> (0 <= snr_slider g)%Z ->
  all_finite (transferOf g (kernel raster g bbox)).
Proof.
  intros Hc Hr Hs.
  destruct (Z.eq_dec (snr_slider g) 0) as [Hz | Hnz].
  - intros y x Hy Hx.
    rewrite transferOf_rows in Hy. rewrite transferOf_cols in Hx.
    rewrite transferOf_cell, Hz, wienerCell_snr0 by (assumption || lia). reflexivity.
  - apply transferOf_finite; [assumption | assumption | lia].
Qed.

(** X14: With both sliders inside the ranges of the trackbars (neither is
    negative) the callbacks return a finite sample in every cell of the
    result, for every finite image: no infinity and no NaN reaches the
    display. *)
Theorem callbacks_finite
    (raster : nat -> nat -> Point -> Z -> Z -> Z -> nat -> nat -> bool)
    (g : Globals) (pos : Z) (image : Mat fval) :
  paints_center raster ->
  (0 <= radius_slider g)%Z -> (0 <= snr_slider g)%Z ->
  all_finite image ->
  exists o,
    on_radius_trackbar raster g pos image = Ok o /\
    on_snr_trackbar raster g pos image = Ok o /\
    all_finite o.
Proof.
  intros Hc Hr Hs Hfin.
  destruct (callbacks_through_filter raster g pos image Hr) as [-> ->].
  destruct (filter_cells (whole image) no_image
              (transferOf g (kernel raster g (mkSize (cols image) (rows image))))
              (whole_finite image Hfin)
              (transferOf_finite_snr0 raster g _ Hc Hr Hs))
    as (o & Ho & _ & _ & Hat).
  - apply transferOf_rows.
  - apply transferOf_cols.
  - exists o. split; [exact Ho | split; [exact Ho |]].
    intros y x _ _. rewrite Hat. reflexivity.
Qed.

Lemma callbacks_finite_witness :
  exists o,
    on_radius_trackbar disk_raster default_sliders 64 image4x4 = Ok o /\
    on_snr_trackbar disk_raster default_sliders 64 image4x4 = Ok o /\
    all_finite o.
Proof.
  apply (callbacks_finite disk_raster default_sliders 64 image4x4 disk_raster_center).
  - discriminate.
  - discriminate.
  - intros y x _ _. reflexivity.
Defined.

(** ** The weights of the kernel *)

Lemma rsum_term_le (n k : nat) (f : nat -> R) :
  (forall i, (i < n)%nat -> 0 <= f i) -> (k < n)%nat -> f k <= rsum n f.
Proof.
  induction n as [|n IH]; intros H Hk; [lia|]. simpl.
  assert (Hn : forall i, (i < n)%nat -> 0 <= f i) by auto with arith.
  pose proof (rsum_nonneg n f Hn).
  destruct (Nat.eq_dec k n) as [-> | Hne].
  - lra.
  - assert (f k <= rsum n f) by (apply IH; [exact Hn | lia]).
    assert (0 <= f n) by auto with arith. lra.
Qed.

Lemma raw_le_total
    (raster : nat -> nat -> Point -> Z -> Z -> Z -> nat -> nat -> bool)
    (g : Globals) (bbox : Size) (y x : nat) :
  (y < height bbox)%nat -> (x < width bbox)%nat ->
  raw raster g bbox y x <= total raster g bbox.
Proof.
  intros Hy Hx. unfold total.
  apply Rle_trans with (rsum (width bbox) (fun x' => raw raster g bbox y x')).
  - apply (rsum_term_le _ x (fun x' => raw raster g bbox y x')); [| exact Hx].
    intros. apply raw_nonneg.
  - apply (rsum_term_le _ y (fun y' => rsum (width bbox) (fun x' => raw raster g bbox y' x')));
      [| exact Hy].
    intros. apply rsum_nonneg. intros. apply raw_nonneg.
Qed.

(** X15: The kernel of line 113 is a uniform weighting of the painted cells:
    every cell inside it is a number between zero and one, it is
    positive exactly on the painted cells, and two painted cells have
    the same weight. *)
Theorem kernel_weights
    (raster : nat -> nat -> Point -> Z -> Z -> Z -> nat -> nat -> bool)
    (g : Globals) (bbox : Size) (psf : Mat fval) :
  paints_center raster ->
  getPSF raster g bbox = Ok psf ->
  forall y x, (y < rows psf)%nat -> (x < cols psf)%nat ->
    exists c,
      at_ psf y x = Fin c /\ 0 <= c <= 1 /\
      (0 < c <-> painted raster g bbox y x = true) /\
      (forall y' x', painted raster g bbox y x = true ->
                     painted raster g bbox y' x' = true ->
                     at_ psf y' x' = Fin c).
Proof.
  intros Hc Hpsf y x Hy Hx.
  destruct (Z.lt_ge_cases (radius_slider g) 0) as [Hneg | Hr].
  { rewrite getPSF_raise in Hpsf by exact Hneg. discriminate. }
  rewrite getPSF_ok in Hpsf by exact Hr. injection Hpsf as <-.
  cbn [rows cols kernel] in Hy, Hx.
  assert (Hpos : 0 < total raster g bbox) by (apply total_pos; [assumption | assumption | lia | lia]).
  pose proof (raw_le_total raster g bbox y x Hy Hx) as Hle.
  pose proof (raw_nonneg raster g bbox y x) as Hge.
  exists (raw raster g bbox y x / total raster g bbox).
  split; [apply kernel_cell; exact Hpos | split; [| split]].
  - split.
    + apply Rmult_le_pos; [exact Hge | left; apply Rinv_0_lt_compat; exact Hpos].
    + apply Rmult_le_reg_r with (total raster g bbox); [exact Hpos|].
      replace (raw raster g bbox y x / total raster g bbox * total raster g bbox)
        with (raw raster g bbox y x) by (field; lra).
      lra.
  - unfold raw. destruct (painted raster g bbox y x).
    + split; [reflexivity | intros _; apply Rdiv_lt_0_compat; lra].
    + split; [| discriminate]. unfold Rdiv. rewrite Rmult_0_l. lra.
  - intros y' x' Hp Hp'. rewrite kernel_cell by exact Hpos.
    unfold raw. rewrite Hp, Hp'. reflexivity.
Qed.

Lemma kernel_weights_witness :
  exists c,
    at_ (kernel disk_raster default_sliders (mkSize 4 4)) 1 2 = Fin c /\ 0 <= c <= 1 /\
    (0 < c <-> painted disk_raster default_sliders (mkSize 4 4) 1 2 = true) /\
    (forall y' x', painted disk_raster default_sliders (mkSize 4 4) 1 2 = true ->
                   painted disk_raster default_sliders (mkSize 4 4) y' x' = true ->
                   at_ (kernel disk_raster default_sliders (mkSize 4 4)) y' x' = Fin c).
Proof.
  apply (kernel_weights disk_raster default_sliders (mkSize 4 4) _ disk_raster_center).
  - apply getPSF_ok. discriminate.
  - simpl. lia.
  - simpl. lia.
Defined.

(** ** The noise slider decides the output *)








